(** * copilot-play: a shallow embedding of [src/copilot-play.ts]

    The wrapper spawns the copilot CLI in a pseudo-terminal, shows its
    output in a log pane and a small game in a second pane, and moves the
    keyboard focus between the two.  This development embeds the pure
    parts of the program (output buffer, prompt detector, hook-state
    reader, focus computation, key forwarding, game, argument parsing)
    and proves properties of them.

    Part I holds the definitions, in the order of the source file.
    Part II holds the lemmas and theorems. *)

From Stdlib Require Import Strings.String Strings.Ascii.
From Stdlib Require Import List Bool NArith ZArith QArith Qround Lia.
Import ListNotations.

Set Implicit Arguments.
Set Warnings "-register-all".

(* ===================================================================== *)
(** * Part I: the embedding *)
(* ===================================================================== *)

(** ** JavaScript strings

    A JavaScript string is a sequence of UTF-16 code units.  Regular
    expressions without the [u] flag, [split], [trim] and [===] all work
    on code units, so a string is a list of code units here. *)

Abbreviation char := N (only parsing).
Abbreviation str := (list N) (only parsing).

(** [lit "abc"] is the JavaScript literal ["abc"] (ASCII only). *)
Definition lit (s : String.string) : str :=
  map Ascii.N_of_ascii (String.list_ascii_of_string s).
Arguments lit s%_string.

Fixpoint str_eqb (a b : str) : bool :=
  match a, b with
  | [], [] => true
  | x :: a', y :: b' => N.eqb x y && str_eqb a' b'
  | _, _ => false
  end.

(** Code units the program names. *)
Definition ESC : char := 27%N.       (* \x1b *)
Definition LBRACKET : char := 91%N.  (* [ *)
Definition CR : char := 13%N.        (* \r *)
Definition LF : char := 10%N.        (* \n *)

(** An optional string as a JavaScript value: [None] is [undefined] (or
    [null]).  [truthy] is the test [if (s)]: a string is falsy exactly
    when it is absent or empty. *)
Definition truthy (s : option str) : bool :=
  match s with
  | Some (_ :: _) => true
  | _ => false
  end.

(** [String.prototype.trim]: removes WhiteSpace and LineTerminator code
    points from both ends (ECMA-262, TrimString). *)
Definition is_ws (c : char) : bool :=
  ((9 <=? c) && (c <=? 13) || (c =? 32) || (c =? 160) || (c =? 5760)
   || (8192 <=? c) && (c <=? 8202) || (c =? 8232) || (c =? 8233)
   || (c =? 8239) || (c =? 8287) || (c =? 12288) || (c =? 65279))%N.

Fixpoint trimStart (s : str) : str :=
  match s with
  | c :: r => if is_ws c then trimStart r else s
  | [] => []
  end.

Definition trimEnd (s : str) : str := rev (trimStart (rev s)).

Definition trim (s : str) : str := trimEnd (trimStart s).

(** ** Regular expressions

    Only [test] is ever called on a prompt pattern, and no pattern has the
    [g] or [y] flag, so [test] is a pure function of the line. *)

Record RegExp := { test : str -> bool }.

(** The fragment of the regular-expression syntax the built-in prompt
    patterns use: characters, sequence and [?]. *)
Inductive re :=
| Eps
| Chr (c : char)
| Cat (r1 r2 : re)
| Opt (r : re).

(** Backtracking matcher: [re_match r s k] matches [r] at the head of [s]
    and hands the rest to [k]; [Opt] is greedy as in JavaScript. *)
Fixpoint re_match (r : re) (s : str) (k : str -> bool) : bool :=
  match r with
  | Eps => k s
  | Chr c => match s with
             | x :: s' => N.eqb x c && k s'
             | [] => false
             end
  | Cat r1 r2 => re_match r1 s (fun s' => re_match r2 s' k)
  | Opt r1 => re_match r1 s k || k s
  end.

(** [/^r$/]: without the [m] flag [^] is the start and [$] the end of the
    input. *)
Definition anchored (r : re) : RegExp :=
  {| test := fun s => re_match r s (fun rest => match rest with [] => true | _ => false end) |}.

Fixpoint re_lit (s : str) : re :=
  match s with
  | [] => Eps
  | c :: r => Cat (Chr c) (re_lit r)
  end.

(** [const DEFAULT_PROMPTS = [/^> ?$/, /^copilot> ?$/, /^\u276f ?$/]] *)
Definition DEFAULT_PROMPTS : list RegExp :=
  [ anchored (Cat (re_lit (lit ">")) (Opt (Chr 32%N)));
    anchored (Cat (re_lit (lit "copilot>")) (Opt (Chr 32%N)));
    anchored (Cat (Chr 10095%N) (Opt (Chr 32%N))) ].

(** [type Focus = "game" | "copilot"] and
    [type HookState = "busy" | "idle" | "unknown"] *)
Inductive Focus := focus_game | focus_copilot.
Inductive HookState := busy | idle | unknown.

(** ** Output buffer

    [const ANSI_RE = /\x1b\[[0-9;?]*[A-Za-z]/g] *)

Definition is_param (c : char) : bool :=            (* [0-9;?] *)
  ((48 <=? c) && (c <=? 57) || (c =? 59) || (c =? 63))%N.

Definition is_alpha (c : char) : bool :=            (* [A-Za-z] *)
  ((65 <=? c) && (c <=? 90) || (97 <=? c) && (c <=? 122))%N.

(** [skip_params s] is [s] without its longest prefix in [[0-9;?]*]. *)
Fixpoint skip_params (s : str) : str :=
  match s with
  | c :: r => if is_param c then skip_params r else s
  | [] => []
  end.

(** One match of [ANSI_RE] at the head of [s]: the text after the match.
    The parameter class and the final class are disjoint, so the greedy
    star never gives a character back and the match is unique. *)
Definition match_ANSI_RE (s : str) : option str :=
  match s with
  | c1 :: c2 :: r =>
      if (N.eqb c1 ESC && N.eqb c2 LBRACKET) then
        match skip_params r with
        | c :: r' => if is_alpha c then Some r' else None
        | [] => None
        end
      else None
  | _ => None
  end.

(** [s.replace(ANSI_RE, "")] with the [g] flag: scan from the left; where
    the pattern matches, drop the match and go on after it, otherwise keep
    the character.  The fuel is the length of the text. *)
Fixpoint replace_ANSI_RE (fuel : nat) (s : str) : str :=
  match fuel with
  | O => []
  | S fuel' =>
      match s with
      | [] => []
      | c :: r =>
          match match_ANSI_RE s with
          | Some rest => replace_ANSI_RE fuel' rest
          | None => c :: replace_ANSI_RE fuel' r
          end
      end
  end.

Definition strip_ansi (s : str) : str := replace_ANSI_RE (length s) s.

(** [s.replace(/\r/g, "")] *)
Definition strip_cr (s : str) : str :=
  filter (fun c => negb (N.eqb c CR)) s.

(** [s.split("\n")]: the segments between newlines; never empty. *)
Fixpoint split_nl (s : str) : list str :=
  match s with
  | [] => [[]]
  | c :: r =>
      if N.eqb c LF then [] :: split_nl r
      else match split_nl r with
           | seg :: segs => (c :: seg) :: segs
           | [] => [[c]]
           end
  end.

(** [xs.slice(-n)]: the last [n] elements. *)
Definition slice_last (A : Type) (n : nat) (xs : list A) : list A :=
  skipn (length xs - n) xs.

Module OutputBuffer.

Record t := { lines : list str; partial : str }.

(** [new OutputBuffer()] *)
Definition empty : t := {| lines := []; partial := [] |}.

Definition cleaned (text : str) : str := strip_cr (strip_ansi text).

Definition append (b : t) (text : str) : t :=
  let parts := split_nl (cleaned text) in
  if Nat.eqb (length parts) 1 then
    {| lines := lines b; partial := partial b ++ hd [] parts |}
  else
    let pushed := (lines b ++ [partial b ++ hd [] parts])
                    ++ removelast (tl parts) in              (* parts.slice(1, -1) *)
    {| lines := if Nat.ltb 2000 (length pushed) then slice_last 2000 pushed
                else pushed;
       partial := last parts [] |}.

Definition snapshot (b : t) : list str :=
  match partial b with
  | [] => lines b
  | _ :: _ => lines b ++ [partial b]
  end.

(** The buffer after a sequence of [append] calls. *)
Definition feed (b : t) (chunks : list str) : t := fold_left append chunks b.

End OutputBuffer.

(** ** Prompt detector *)

(** The loop [for (i = lines.length - 1; i >= 0; i -= 1)]; [n] is [i + 1]. *)
Fixpoint detectPrompt_from (lines : list str) (patterns : list RegExp) (n : nat) : bool :=
  match n with
  | O => false
  | S i =>
      let line := trim (nth i lines []) in
      match line with
      | [] => detectPrompt_from lines patterns i               (* continue *)
      | _ :: _ => existsb (fun pattern => test pattern line) patterns
      end
  end.

Definition detectPrompt (lines : list str) (patterns : list RegExp) : bool :=
  detectPrompt_from lines patterns (length lines).

(** ** Key forwarding *)

(** The fields of a blessed key event that the program reads. *)
Record IKeyEventArg := { name : option str; sequence : option str }.

Definition name_is (key : IKeyEventArg) (s : str) : bool :=
  match name key with
  | Some n => str_eqb n s
  | None => false
  end.

(** [sendToCopilot(ptyProcess, key, ch)]: the list of [ptyProcess.write]
    calls it makes, in order. *)
Definition sendToCopilot (key : IKeyEventArg) (ch : option str) : list str :=
  let seq := sequence key in
  if name_is key (lit "enter") then [[CR]]
  else if name_is key (lit "backspace") then [[127%N]]
  else if name_is key (lit "up") then [ESC :: lit "[A"]
  else if name_is key (lit "down") then [ESC :: lit "[B"]
  else if name_is key (lit "left") then [ESC :: lit "[D"]
  else if name_is key (lit "right") then [ESC :: lit "[C"]
  else if truthy seq then [match seq with Some s => s | None => [] end]
  else if truthy ch then [match ch with Some s => s | None => [] end]
  else [].

(** ** Focus *)

Inductive Status := PAUSED | RUNNING.

Definition HookState_eqb (a b : HookState) : bool :=
  match a, b with
  | busy, busy | idle, idle | unknown, unknown => true
  | _, _ => false
  end.

(** The module-level variables the focus is computed from. *)
Record Signals := {
  promptDetected : bool;
  hookState : HookState;
  manualFocus : option Focus
}.

(** [manualFocus ?? d] *)
Definition nullish (A : Type) (v : option A) (d : A) : A :=
  match v with
  | Some a => a
  | None => d
  end.

(** The constants [waiting], [focus] and [status] of [render()]. *)
Definition render_focus_status (st : Signals) : Focus * Status :=
  let waiting := promptDetected st || HookState_eqb (hookState st) idle in
  let focus := nullish (manualFocus st) (if waiting then focus_copilot else focus_game) in
  let status := if waiting then PAUSED else RUNNING in
  (focus, status).

(** Where the keypress handler sends a key. *)
Inductive Routed :=
| GameMove (dx dy : Z)
| GameReset
| Ignored
| ToCopilot (writes : list str).

Definition ch_is (ch : option str) (s : str) : bool :=
  match ch with
  | Some c => str_eqb c s
  | None => false
  end.

(** The constant [focus] of the keypress handler. *)
Definition keypress_focus (st : Signals) : Focus :=
  let waiting := promptDetected st || HookState_eqb (hookState st) idle in
  nullish (manualFocus st) (if waiting then focus_copilot else focus_game).

(** [screen.on("keypress", (ch, key) => ...)] *)
Definition keypress (st : Signals) (ch : option str) (key : IKeyEventArg) : Routed :=
  match keypress_focus st with
  | focus_game =>
      if name_is key (lit "up") || ch_is ch (lit "w") || ch_is ch (lit "W") then GameMove 0 (-1)
      else if name_is key (lit "down") || ch_is ch (lit "s") || ch_is ch (lit "S") then GameMove 0 1
      else if name_is key (lit "left") || ch_is ch (lit "a") || ch_is ch (lit "A") then GameMove (-1) 0
      else if name_is key (lit "right") || ch_is ch (lit "d") || ch_is ch (lit "D") then GameMove 1 0
      else if ch_is ch (lit "r") || ch_is ch (lit "R") then GameReset
      else Ignored
  | focus_copilot => ToCopilot (sendToCopilot key ch)
  end.

(** [screen.key(["C-g"], ...)] *)
Definition toggle (m : option Focus) : option Focus :=
  match m with
  | Some focus_game => Some focus_copilot
  | Some focus_copilot => None
  | None => Some focus_game
  end.

(** ** Exceptions and completions

    How a JavaScript call ends: it returns, it throws, or the process
    exits.  Only the [code] property of an exception is ever inspected;
    [SyntaxError] and [TypeError] have none. *)

Inductive Exn :=
| ErrnoException (code : str)
| SyntaxError
| TypeError.

Definition exn_code (e : Exn) : option str :=
  match e with
  | ErrnoException c => Some c
  | _ => None
  end.

Inductive Completion (A : Type) :=
| Normal (a : A)
| Throw (e : Exn)
| Exit (status : Z).
Arguments Normal {A} a.
Arguments Throw {A} e.
Arguments Exit {A} status.

(** ** JSON

    [JSON.parse] is a built-in of the JavaScript engine, not code of this
    program; it is modelled after the JSON grammar of ECMA-404.  A number
    keeps its source text: the program never looks at one. *)

Inductive JSON :=
| JNull
| JBool (b : bool)
| JNumber (text : str)
| JString (s : str)
| JArray (items : list JSON)
| JObject (members : list (str * JSON)).

Definition is_json_ws (c : char) : bool :=
  ((c =? 32) || (c =? 9) || (c =? 10) || (c =? 13))%N.

Fixpoint skip_json_ws (s : str) : str :=
  match s with
  | c :: r => if is_json_ws c then skip_json_ws r else s
  | [] => []
  end.

Definition is_digit (c : char) : bool := ((48 <=? c) && (c <=? 57))%N.

Definition hex_value (c : char) : option N :=
  (if (48 <=? c) && (c <=? 57) then Some (c - 48)
   else if (65 <=? c) && (c <=? 70) then Some (c - 55)
   else if (97 <=? c) && (c <=? 102) then Some (c - 87)
   else None)%N.

Definition hex4 (a b c d : char) : option char :=
  match hex_value a, hex_value b, hex_value c, hex_value d with
  | Some x3, Some x2, Some x1, Some x0 => Some (((x3 * 16 + x2) * 16 + x1) * 16 + x0)%N
  | _, _, _, _ => None
  end.

(** The characters of a string literal after its opening quote: the
    decoded string and the text after the closing quote. *)
Fixpoint json_chars (s : str) : option (str * str) :=
  match s with
  | [] => None
  | c :: r =>
      if N.eqb c 34 then Some ([], r)                          (* closing quote *)
      else if N.eqb c 92 then                                  (* backslash *)
        match r with
        | e :: r' =>
            let simple (d : char) :=
              match json_chars r' with
              | Some (t, rest) => Some (d :: t, rest)
              | None => None
              end in
            if N.eqb e 34 then simple 34%N
            else if N.eqb e 92 then simple 92%N
            else if N.eqb e 47 then simple 47%N
            else if N.eqb e 98 then simple 8%N
            else if N.eqb e 102 then simple 12%N
            else if N.eqb e 110 then simple 10%N
            else if N.eqb e 114 then simple 13%N
            else if N.eqb e 116 then simple 9%N
            else if N.eqb e 117 then                           (* \uXXXX *)
              match r' with
              | h1 :: h2 :: h3 :: h4 :: r'' =>
                  match hex4 h1 h2 h3 h4, json_chars r'' with
                  | Some d, Some (t, rest) => Some (d :: t, rest)
                  | _, _ => None
                  end
              | _ => None
              end
            else None
        | [] => None
        end
      else if N.ltb c 32 then None                             (* control character *)
      else match json_chars r with
           | Some (t, rest) => Some (c :: t, rest)
           | None => None
           end
  end.

(** The longest prefix of digits, and the rest. *)
Fixpoint digits (s : str) : str * str :=
  match s with
  | c :: r => if is_digit c then let (d, rest) := digits r in (c :: d, rest) else ([], s)
  | [] => ([], [])
  end.

(** A number: an optional minus sign, an integer part without leading
    zero, an optional fraction and an optional exponent. *)
Definition json_number (s : str) : option (str * str) :=
  let (sign, s1) := match s with
                    | c :: r => if N.eqb c 45 then ([c], r) else ([], s)
                    | [] => ([], [])
                    end in
  let (int, s2) := digits s1 in
  match int with
  | [] => None
  | d :: ds =>
      if N.eqb d 48 && negb (Nat.eqb (length ds) 0) then None   (* leading zero *)
      else
        let frac :=
          match s2 with
          | c :: r =>
              if N.eqb c 46 then
                match digits r with
                | ([], _) => None
                | (f, rest) => Some (c :: f, rest)
                end
              else Some ([], s2)
          | [] => Some ([], [])
          end in
        match frac with
        | None => None
        | Some (f, s3) =>
            let expo :=
              match s3 with
              | c :: r =>
                  if N.eqb c 101 || N.eqb c 69 then
                    let (sg, r1) := match r with
                                    | c' :: r' => if N.eqb c' 43 || N.eqb c' 45 then ([c'], r') else ([], r)
                                    | [] => ([], [])
                                    end in
                    match digits r1 with
                    | ([], _) => None
                    | (e, rest) => Some (c :: sg ++ e, rest)
                    end
                  else Some ([], s3)
              | [] => Some ([], [])
              end in
            match expo with
            | None => None
            | Some (e, s4) => Some (sign ++ int ++ f ++ e, s4)
            end
        end
  end.

(** [starts_with p s]: the text after the prefix [p] of [s]. *)
Fixpoint starts_with (p s : str) : option str :=
  match p, s with
  | [], _ => Some s
  | a :: p', b :: s' => if N.eqb a b then starts_with p' s' else None
  | _ :: _, [] => None
  end.

(** One JSON value at the head of [s] (after white space), and the text
    after it.  [fuel] bounds the nesting depth; the inner loops over the
    elements of an array and the members of an object have a fuel of
    their own. *)
Fixpoint json_value (fuel : nat) (s : str) : option (JSON * str) :=
  match fuel with
  | O => None
  | S fuel' =>
      match skip_json_ws s with
      | [] => None
      | c :: r =>
          if N.eqb c 34 then                                   (* string *)
            match json_chars r with
            | Some (t, rest) => Some (JString t, rest)
            | None => None
            end
          else if N.eqb c 123 then                             (* object *)
            match skip_json_ws r with
            | c' :: r' =>
                if N.eqb c' 125 then Some (JObject [], r')
                else
                  (fix members (n : nat) (s0 : str) (acc : list (str * JSON)) {struct n}
                     : option (JSON * str) :=
                     match n with
                     | O => None
                     | S n' =>
                         match skip_json_ws s0 with
                         | q :: s1 =>
                             if N.eqb q 34 then
                               match json_chars s1 with
                               | Some (key, s2) =>
                                   match skip_json_ws s2 with
                                   | colon :: s3 =>
                                       if N.eqb colon 58 then
                                         match json_value fuel' s3 with
                                         | Some (v, s4) =>
                                             match skip_json_ws s4 with
                                             | sep :: s5 =>
                                                 if N.eqb sep 44 then members n' s5 (acc ++ [(key, v)])
                                                 else if N.eqb sep 125 then Some (JObject (acc ++ [(key, v)]), s5)
                                                 else None
                                             | [] => None
                                             end
                                         | None => None
                                         end
                                       else None
                                   | [] => None
                                   end
                               | None => None
                               end
                             else None
                         | [] => None
                         end
                     end) (length r) r []
            | [] => None
            end
          else if N.eqb c 91 then                              (* array *)
            match skip_json_ws r with
            | c' :: r' =>
                if N.eqb c' 93 then Some (JArray [], r')
                else
                  (fix elements (n : nat) (s0 : str) (acc : list JSON) {struct n}
                     : option (JSON * str) :=
                     match n with
                     | O => None
                     | S n' =>
                         match json_value fuel' s0 with
                         | Some (v, s1) =>
                             match skip_json_ws s1 with
                             | sep :: s2 =>
                                 if N.eqb sep 44 then elements n' s2 (acc ++ [v])
                                 else if N.eqb sep 93 then Some (JArray (acc ++ [v]), s2)
                                 else None
                             | [] => None
                             end
                         | None => None
                         end
                     end) (length r) r []
            | [] => None
            end
          else
            match starts_with (lit "true") (c :: r),
                  starts_with (lit "false") (c :: r),
                  starts_with (lit "null") (c :: r) with
            | Some rest, _, _ => Some (JBool true, rest)
            | _, Some rest, _ => Some (JBool false, rest)
            | _, _, Some rest => Some (JNull, rest)
            | None, None, None =>
                match json_number (c :: r) with
                | Some (t, rest) => Some (JNumber t, rest)
                | None => None
                end
            end
      end
  end.

(** [JSON.parse(raw)]: one value, white space around it, nothing else;
    anything else throws a [SyntaxError]. *)
Definition JSON_parse (raw : str) : Completion JSON :=
  match json_value (S (length raw)) raw with
  | Some (v, rest) =>
      match skip_json_ws rest with
      | [] => Normal v
      | _ :: _ => Throw SyntaxError
      end
  | None => Throw SyntaxError
  end.

(** [o[key]] on the members of a parsed object: when a key is repeated the
    last member wins. *)
Fixpoint lookup_member (key : str) (members : list (str * JSON)) : option JSON :=
  match members with
  | [] => None
  | (k, v) :: rest =>
      match lookup_member key rest with
      | Some v' => Some v'
      | None => if str_eqb k key then Some v else None
      end
  end.

(** [parsed.state]: reading a property of [null] throws a [TypeError]; an
    object gives its member or [undefined]; arrays, strings, numbers and
    booleans have no property [state]. *)
Definition get_state (parsed : JSON) : Completion (option JSON) :=
  match parsed with
  | JNull => Throw TypeError
  | JObject members => Normal (lookup_member (lit "state") members)
  | _ => Normal None
  end.

(** ** Hook state reader

    The file system as [readHookState] sees it: what [fs.statSync(p)]
    answers (the [mtimeMs] of the file, or an exception) and what
    [fs.readFileSync(p, "utf8")] answers.  A modification time is only
    ever compared with [===], so it is an integer here. *)

Record FileSystem := {
  statSync : str -> Completion Z;
  readFileSync : str -> Completion str
}.

(** The calls made on the file system, in order. *)
Inductive FsCall :=
| CallStat (path : str)
| CallRead (path : str).

(** A computation that logs its file-system calls and may throw. *)
Definition IO (A : Type) : Type := list FsCall * Completion A.

Definition ret (A : Type) (a : A) : IO A := ([], Normal a).

Definition bind (A B : Type) (m : IO A) (k : A -> IO B) : IO B :=
  match m with
  | (log, Normal a) => let (log', r) := k a in (log ++ log', r)
  | (log, Throw e) => (log, Throw e)
  | (log, Exit n) => (log, Exit n)
  end.

Notation "x <- m ;; k" := (bind m (fun x => k))
  (at level 61, m at next level, right associativity).

Definition do_stat (fs : FileSystem) (path : str) : IO Z :=
  ([CallStat path], statSync fs path).

Definition do_read (fs : FileSystem) (path : str) : IO str :=
  ([CallRead path], readFileSync fs path).

Definition pure (A : Type) (c : Completion A) : IO A := ([], c).

(** [{ state: HookState; mtime: number | null }] *)
Record HookReading := { state : HookState; mtime : option Z }.

(** [previousMtime !== null && stat.mtimeMs === previousMtime] *)
Definition same_mtime (previousMtime : option Z) (mtimeMs : Z) : bool :=
  match previousMtime with
  | Some p => Z.eqb mtimeMs p
  | None => false
  end.

(** [v === "busy" || v === "idle"], with the state it denotes. *)
Definition recognized_state (v : option JSON) : option HookState :=
  match v with
  | Some (JString s) =>
      if str_eqb s (lit "busy") then Some busy
      else if str_eqb s (lit "idle") then Some idle
      else None
  | _ => None
  end.

(** The [try] block of [readHookState]: [Some r] when it executes
    [return r], [None] when control falls out of its end. *)
Definition readHookState_try (fs : FileSystem) (stateFile : str)
    (previousMtime : option Z) : IO (option HookReading) :=
  mtimeMs <- do_stat fs stateFile ;;
  if same_mtime previousMtime mtimeMs then
    ret (Some {| state := unknown; mtime := previousMtime |})
  else
    raw <- do_read fs stateFile ;;
    parsed <- pure (JSON_parse raw) ;;
    st <- pure (get_state parsed) ;;
    match recognized_state st with
    | Some s => ret (Some {| state := s; mtime := Some mtimeMs |})
    | None => ret None
    end.

(** [error.code !== "ENOENT"] *)
Definition not_ENOENT (e : Exn) : bool :=
  match exn_code e with
  | Some c => negb (str_eqb c (lit "ENOENT"))
  | None => true
  end.

(** [readHookState(stateFile, previousMtime)] with the log of its
    file-system calls.  The function calls nothing that exits. *)
Definition readHookState (fs : FileSystem) (stateFile : str)
    (previousMtime : option Z) : HookReading * list FsCall :=
  match readHookState_try fs stateFile previousMtime with
  | (log, Normal (Some r)) => (r, log)
  | (log, Normal None) => ({| state := unknown; mtime := None |}, log)
  | (log, Throw e) =>
      if not_ENOENT e then ({| state := unknown; mtime := previousMtime |}, log)
      else ({| state := unknown; mtime := None |}, log)
  | (log, Exit _) => ({| state := unknown; mtime := None |}, log)
  end.

(** The variables [hookState] and [hookMtime]. *)
Record HookVars := { var_hookState : HookState; var_hookMtime : option Z }.

Definition option_Z_eqb (a b : option Z) : bool :=
  match a, b with
  | Some p, Some q => Z.eqb p q
  | None, None => true
  | _, _ => false
  end.

(** [refreshHookState()] *)
Definition refreshHookState (fs : FileSystem) (stateFile : str) (v : HookVars)
    : HookVars * list FsCall :=
  let (r, log) := readHookState fs stateFile (var_hookMtime v) in
  match mtime r with
  | Some m =>
      if negb (option_Z_eqb (Some m) (var_hookMtime v))
      then ({| var_hookState := state r; var_hookMtime := Some m |}, log)
      else (v, log)
  | None => ({| var_hookState := unknown; var_hookMtime := None |}, log)
  end.

(** ** Game *)

Module Game.

Record pos := { x : Z; y : Z }.

Record t := {
  width : Z;
  height : Z;
  player : pos;
  target : pos;
  score : Z
}.

(** The field initialisers of the class. *)
Definition initial : t :=
  {| width := 10; height := 6;
     player := {| x := 0; y := 0 |};
     target := {| x := 0; y := 0 |};
     score := 0 |}.

(** [Math.floor(Math.random() * n)] for a value [r] of [Math.random()];
    the product is taken exactly. *)
Definition random_below (r : Q) (n : Z) : Z := Qfloor (r * inject_Z n).

(** The [while (true)] loop of [placeTarget].  [rng] holds the values
    that successive calls of [Math.random()] return; each round takes
    two.  [None]: the values ran out before a round succeeded. *)
Fixpoint placeTarget_loop (g : t) (rng : list Q) : option (t * list Q) :=
  match rng with
  | rx :: ry :: rest =>
      let tx := random_below rx (width g) in
      let ty := random_below ry (height g) in
      if negb (Z.eqb tx (x (player g))) || negb (Z.eqb ty (y (player g))) then
        Some ({| width := width g; height := height g; player := player g;
                 target := {| x := tx; y := ty |}; score := score g |}, rest)
      else placeTarget_loop g rest
  | _ => None
  end.

Definition placeTarget (g : t) (rng : list Q) : option (t * list Q) :=
  if Z.leb (width g) 1 || Z.leb (height g) 1 then
    Some ({| width := width g; height := height g; player := player g;
             target := {| x := 0; y := 0 |}; score := score g |}, rng)
  else placeTarget_loop g rng.

Definition resize (g : t) (w h : Z) (rng : list Q) : option (t * list Q) :=
  let width' := Z.max 5 w in
  let height' := Z.max 5 h in
  placeTarget
    {| width := width'; height := height';
       player := {| x := Z.min (x (player g)) (width' - 1);
                    y := Z.min (y (player g)) (height' - 1) |};
       target := target g; score := score g |} rng.

Definition reset (g : t) (rng : list Q) : option (t * list Q) :=
  placeTarget
    {| width := width g; height := height g;
       player := {| x := width g / 2; y := height g / 2 |};
       target := target g; score := 0 |} rng.

Definition move (g : t) (dx dy : Z) (rng : list Q) : option (t * list Q) :=
  let px := Z.max 0 (Z.min (width g - 1) (x (player g) + dx)) in
  let py := Z.max 0 (Z.min (height g - 1) (y (player g) + dy)) in
  let g1 := {| width := width g; height := height g;
               player := {| x := px; y := py |};
               target := target g; score := score g |} in
  if Z.eqb px (x (target g)) && Z.eqb py (y (target g)) then
    placeTarget
      {| width := width g1; height := height g1; player := player g1;
         target := target g1; score := score g1 + 1 |} rng
  else Some (g1, rng).

(** The three public operations, and a sequence of them. *)
Inductive op :=
| Move (dx dy : Z)
| Resize (w h : Z)
| Reset.

Definition apply (o : op) (g : t) (rng : list Q) : option (t * list Q) :=
  match o with
  | Move dx dy => move g dx dy rng
  | Resize w h => resize g w h rng
  | Reset => reset g rng
  end.

Fixpoint run (ops : list op) (g : t) (rng : list Q) : option (t * list Q) :=
  match ops with
  | [] => Some (g, rng)
  | o :: ops' =>
      match apply o g rng with
      | Some (g', rng') => run ops' g' rng'
      | None => None
      end
  end.

(** The same cell. *)
Definition same_cell (p q : pos) : bool := Z.eqb (x p) (x q) && Z.eqb (y p) (y q).

(** A supply of random values that lets [placeTarget] finish: [rng]
    holds at least [k + 1] rounds and, of these, no two in a row draw the
    same cell of a [w] by [h] grid.  A call of [placeTarget] then takes
    one round, or two when the first draws the player's cell. *)
Fixpoint varied (w h : Z) (k : nat) (rng : list Q) : bool :=
  match k with
  | O => true
  | S k' =>
      match rng with
      | rx :: ry :: ((rx' :: ry' :: _) as rest) =>
          negb (same_cell {| x := random_below rx w; y := random_below ry h |}
                          {| x := random_below rx' w; y := random_below ry' h |})
          && varied w h k' rest
      | _ => false
      end
  end.

End Game.

(** ** Command line *)

(** [type Args] *)
Record Args := {
  copilot : str;
  stateFile : str;
  promptPatterns : list RegExp;
  copilotArgs : list str
}.

(** [argv.indexOf("--")], then [argv.slice(0, sepIndex)] and
    [argv.slice(sepIndex + 1)]: the tokens before and after the first
    separator; [None] for the second when there is no separator. *)
Fixpoint split_at_separator (argv : list str) : list str * option (list str) :=
  match argv with
  | [] => ([], None)
  | a :: rest =>
      if str_eqb a (lit "--") then ([], Some rest)
      else let (w, c) := split_at_separator rest in (a :: w, c)
  end.

Section ParseArgs.

(** [process.env.COPILOT_HOOKS_STATE], and the value of
    [path.join(os.homedir(), ".copilot", "hooks-state.json")]. *)
Variable env_COPILOT_HOOKS_STATE : option str.
Variable home_state_file : str.

(** [new RegExp(source)]: the compiled pattern, or [None] when the
    constructor throws a [SyntaxError]. *)
Variable new_RegExp : str -> option RegExp.

(** What one round of the [for] loop does with [arg = wrapperArgs[i]] and
    [next = wrapperArgs[i + 1]]. *)
Inductive Round :=
| TakeTwo (acc : Args)       (* a flag with its value: [i += 1], then [i += 1] *)
| TakeOne (acc : Args)       (* [i += 1] only *)
| Stop (c : Completion Args).

Definition option_str (o : option str) : str :=
  match o with
  | Some s => s
  | None => []
  end.

Definition parseArgs_round (arg : str) (next : option str) (acc : Args) : Round :=
  if str_eqb arg (lit "--copilot") && truthy next then
    TakeTwo {| copilot := option_str next; stateFile := stateFile acc;
               promptPatterns := promptPatterns acc; copilotArgs := copilotArgs acc |}
  else if str_eqb arg (lit "--state-file") && truthy next then
    TakeTwo {| copilot := copilot acc; stateFile := option_str next;
               promptPatterns := promptPatterns acc; copilotArgs := copilotArgs acc |}
  else if str_eqb arg (lit "--prompt-regex") && truthy next then
    match new_RegExp (option_str next) with
    | Some pattern =>
        TakeTwo {| copilot := copilot acc; stateFile := stateFile acc;
                   promptPatterns := promptPatterns acc ++ [pattern];
                   copilotArgs := copilotArgs acc |}
    | None => Stop (Throw SyntaxError)
    end
  else if str_eqb arg (lit "--help") then Stop (Exit 0)   (* printUsage(); process.exit(0) *)
  else TakeOne acc.

(** The [for] loop over [wrapperArgs], from index [i] on; the argument is
    [wrapperArgs.slice(i)]. *)
Fixpoint parseArgs_loop (wrapperArgs : list str) (acc : Args) : Completion Args :=
  match wrapperArgs with
  | [] => Normal acc
  | arg :: rest =>
      match parseArgs_round arg (hd_error rest) acc with
      | Stop c => c
      | TakeOne acc' => parseArgs_loop rest acc'
      | TakeTwo acc' =>
          match rest with
          | _ :: rest' => parseArgs_loop rest' acc'
          | [] => Normal acc'
          end
      end
  end.

Definition parseArgs (argv : list str) : Completion Args :=
  let (wrapperArgs, after) := split_at_separator argv in
  parseArgs_loop wrapperArgs
    {| copilot := lit "copilot";
       stateFile := if truthy env_COPILOT_HOOKS_STATE
                    then option_str env_COPILOT_HOOKS_STATE
                    else home_state_file;
       promptPatterns := DEFAULT_PROMPTS;
       copilotArgs := match after with
                      | Some args => args
                      | None => []
                      end |}.

(** A recognized wrapper flag that takes a value. *)
Definition value_flag (arg : str) : bool :=
  str_eqb arg (lit "--copilot") || str_eqb arg (lit "--state-file")
  || str_eqb arg (lit "--prompt-regex").


End ParseArgs.

(** ** Reference definitions

    Definitions that follow the wording of the specification, and the
    auxiliary definitions that the statements of Part II use. *)

(** *** Focus *)

(** "focus = override != none ? override : (waiting ? driven-process :
    game)" with "waiting = promptDetected OR hookState == idle". *)
Definition arbiter_waiting (prompt : bool) (hook : HookState) : bool :=
  match prompt, hook with
  | true, _ => true
  | false, idle => true
  | false, _ => false
  end.

Definition arbiter_focus (override : option Focus) (prompt : bool) (hook : HookState) : Focus :=
  match override with
  | Some f => f
  | None => if arbiter_waiting prompt hook then focus_copilot else focus_game
  end.

Definition arbiter_status (prompt : bool) (hook : HookState) : Status :=
  if arbiter_waiting prompt hook then PAUSED else RUNNING.

(** *** Key forwarding *)

(** "named keys (enter, backspace, arrow keys)". *)
Definition named_key (key : IKeyEventArg) : bool :=
  name_is key (lit "enter") || name_is key (lit "backspace")
  || name_is key (lit "up") || name_is key (lit "down")
  || name_is key (lit "left") || name_is key (lit "right").



(** *** Prompt detector *)

(** A line that is empty or holds white space only. *)
Definition blank (l : str) : Prop := trim l = [].

(** "Scans from the most recent line backward, skipping blank lines, and
    tests the first non-blank line found": the last line whose trimmed
    text is not empty, trimmed. *)
Definition last_nonblank (lines : list str) : option str :=
  find (fun l => match l with [] => false | _ :: _ => true end) (rev (map trim lines)).

(** *** Output buffer *)

(** The completed lines one [append] call inserts: none when the cleaned
    chunk holds no newline; otherwise the pending partial line joined
    with the first segment, then the interior segments. *)
Definition completed_lines (b : OutputBuffer.t) (text : str) : list str :=
  match split_nl (OutputBuffer.cleaned text) with
  | first :: (_ :: _) as more => (OutputBuffer.partial b ++ first) :: removelast more
  | _ => []
  end.

(** [append] as a function of the segments of the cleaned chunk. *)
Definition append_parts (b : OutputBuffer.t) (parts : list str) : OutputBuffer.t :=
  match parts with
  | [] => b
  | [only] =>
      {| OutputBuffer.lines := OutputBuffer.lines b;
         OutputBuffer.partial := OutputBuffer.partial b ++ only |}
  | first :: (_ :: _) as more =>
      {| OutputBuffer.lines :=
           slice_last 2000
             (OutputBuffer.lines b ++ (OutputBuffer.partial b ++ first) :: removelast more);
         OutputBuffer.partial := last more [] |}
  end.

(** The segments of a text cut in two: the last segment of the first
    half and the first segment of the second half are one segment. *)
Definition join_parts (pa pb : list str) : list str :=
  removelast pa ++ (last pa [] ++ hd [] pb) :: tl pb.

(** A control sequence is cut by the boundary between the chunks [a] and
    [b]: somewhere in [a] starts a text that is no match of [ANSI_RE]
    within [a] and is one once [b] follows. *)
Fixpoint straddles (a b : str) : bool :=
  match a with
  | [] => false
  | _ :: r =>
      match match_ANSI_RE a, match_ANSI_RE (a ++ b) with
      | None, Some _ => true
      | _, _ => false
      end || straddles r b
  end.

(** A chunk that ends inside a control sequence: its tail is [ESC], or
    [ESC [] followed by parameter characters only. *)
Definition csi_prefix (s : str) : bool :=
  match s with
  | [] => false
  | [c] => N.eqb c ESC
  | c1 :: c2 :: r => N.eqb c1 ESC && N.eqb c2 LBRACKET && forallb is_param r
  end.

Fixpoint ends_in_csi_prefix (s : str) : bool :=
  match s with
  | [] => false
  | _ :: r => csi_prefix s || ends_in_csi_prefix r
  end.

(** *** Hook state reader *)

(** [dq s]: the literal [s] with every apostrophe read as a quotation
    mark, for texts that contain quotation marks. *)
Definition dq (s : String.string) : str :=
  map (fun c => if N.eqb c 39 then 34%N else c) (lit s).
Arguments dq s%_string.

(** A file system that holds one readable file: every other path is
    absent ([ENOENT]). *)
Definition single_file (path : str) (mtimeMs : Z) (content : str) : FileSystem :=
  {| statSync := fun p => if str_eqb p path then Normal mtimeMs
                          else Throw (ErrnoException (lit "ENOENT"));
     readFileSync := fun p => if str_eqb p path then Normal content
                              else Throw (ErrnoException (lit "ENOENT")) |}.

(** "its content either fails to parse or parses without a recognized
    state value (neither busy nor idle)". *)
Definition bad_content (raw : str) : Prop :=
  match JSON_parse raw with
  | Normal v =>
      match get_state v with
      | Normal st => recognized_state st = None
      | _ => True
      end
  | _ => True
  end.

(** The content parses to a value whose [state] property can be read. *)
Definition parses_to_readable (raw : str) : bool :=
  match JSON_parse raw with
  | Normal v => match get_state v with Normal _ => true | _ => false end
  | _ => false
  end.

(** The state file of the examples, and what it holds. *)
Definition example_state_file : str := lit "/home/u/.copilot/hooks-state.json".
Definition idle_content : str := dq "{'state':'idle','timestamp':1}".
Definition busy_content : str := dq "{'state':'busy','timestamp':2}".

(** *** Game *)

(** "each move changes the player position by one cell in the commanded
    direction clamped to grid bounds". *)
Definition clamp (limit v : Z) : Z := Z.max 0 (Z.min (limit - 1) v).

Definition moved_player (g : Game.t) (dx dy : Z) : Game.pos :=
  {| Game.x := clamp (Game.width g) (Game.x (Game.player g) + dx);
     Game.y := clamp (Game.height g) (Game.y (Game.player g) + dy) |}.

(** The move lands the player on the target. *)
Definition captures (g : Game.t) (dx dy : Z) : bool :=
  Game.same_cell (moved_player g dx dy) (Game.target g).

(** The four steps the keypress handler commands. *)
Definition unit_steps : list (Z * Z) := [(0, -1); (0, 1); (-1, 0); (1, 0)]%Z.

(** One step from [v], staying where it is at the edge. *)
Definition step_within (limit v d : Z) : Z :=
  if ((0 <=? v + d) && (v + d <=? limit - 1))%Z then (v + d)%Z else v.

(** A cell of the grid. *)
Definition in_grid (g : Game.t) (p : Game.pos) : Prop :=
  (0 <= Game.x p < Game.width g /\ 0 <= Game.y p < Game.height g)%Z.

(** A sequence of moves. *)
Definition moves (steps : list (Z * Z)) : list Game.op :=
  map (fun d => Game.Move (fst d) (snd d)) steps.

(** The grid after an operation. *)
Definition width_after (o : Game.op) (g : Game.t) : Z :=
  match o with
  | Game.Resize w _ => Z.max 5 w
  | _ => Game.width g
  end.

Definition height_after (o : Game.op) (g : Game.t) : Z :=
  match o with
  | Game.Resize _ h => Z.max 5 h
  | _ => Game.height g
  end.

Definition is_reset (o : Game.op) : bool :=
  match o with
  | Game.Reset => true
  | _ => false
  end.

(** What [placeTarget] leaves alone. *)
Definition placed (g g' : Game.t) : Prop :=
  Game.width g' = Game.width g /\ Game.height g' = Game.height g
  /\ Game.player g' = Game.player g /\ Game.score g' = Game.score g.

(** Values that [Math.random()] can return: at least 0 and below 1. *)
Definition unit_interval (rng : list Q) : Prop :=
  Forall (fun r => 0 <= r /\ r < 1)%Q rng.

(** The game of the examples: the new game after its first [reset], on
    random values that put the target next to the player. *)
Definition example_rng : list Q :=
  ([6 # 10; 1 # 2; 0; 0] ++ concat (repeat [1 # 2; 1 # 2; 0; 0] 11))%Q.

Definition example_game : Game.t :=
  {| Game.width := 10; Game.height := 6;
     Game.player := {| Game.x := 5; Game.y := 3 |};
     Game.target := {| Game.x := 6; Game.y := 3 |};
     Game.score := 0 |}.

(** The score of a result, when there is one. *)
Definition score_of (r : option (Game.t * list Q)) : option Z :=
  option_map (fun p => Game.score (fst p)) r.

(** *** Command line *)

(** No token of [pre] is the separator. *)
Definition no_separator (pre : list str) : bool :=
  forallb (fun a => negb (str_eqb a (lit "--"))) pre.

(** The configuration [parseArgs] starts from. *)
Definition default_Args (env_COPILOT_HOOKS_STATE : option str) (home_state_file : str)
    (forwarded : list str) : Args :=
  {| copilot := lit "copilot";
     stateFile := if truthy env_COPILOT_HOOKS_STATE
                  then option_str env_COPILOT_HOOKS_STATE
                  else home_state_file;
     promptPatterns := DEFAULT_PROMPTS;
     copilotArgs := forwarded |}.

(** A [new RegExp] for the examples: it takes the source as a literal
    text to match, and rejects a source that opens a group. *)
Definition example_new_RegExp (source : str) : option RegExp :=
  if existsb (N.eqb 40) source then None else Some (anchored (re_lit source)).

(** ** More of the program

    The parts of [src/copilot-play.ts] and [src/scripts/copilot-hook.sh]
    that the sections above leave out. *)

(** *** The log pane

    [lines.join("\n")] *)
Fixpoint join_nl (lines : list str) : str :=
  match lines with
  | [] => []
  | [l] => l
  | l :: rest => l ++ LF :: join_nl rest
  end.

(** The argument of [logBox.setContent] in [render()]:
    [output.snapshot().join("\n")]. *)
Definition log_content (b : OutputBuffer.t) : str :=
  join_nl (OutputBuffer.snapshot b).

(** [ptyProcess.onData((data) => ...)]: the buffer after the chunk and
    the new value of [promptDetected]. *)
Definition onData (patterns : list RegExp) (b : OutputBuffer.t) (data : str)
    : OutputBuffer.t * bool :=
  let b' := OutputBuffer.append b data in
  (b', detectPrompt (OutputBuffer.snapshot b') patterns).

(** The whole cleaned text of a sequence of chunks. *)
Definition cleaned_stream (chunks : list str) : str :=
  concat (map OutputBuffer.cleaned chunks).

(** A text without its final newline, when it has one. *)
Definition chomp (s : str) : str :=
  match rev s with
  | c :: r => if N.eqb c LF then rev r else s
  | [] => []
  end.

(** One whole control sequence: [ESC [], parameter characters, a letter. *)
Definition control_sequence (params : str) (final : char) : str :=
  ESC :: LBRACKET :: params ++ [final].

(** *** Command line *)

(** The same configuration with other arguments for copilot. *)
Definition with_copilotArgs (forwarded : list str) (a : Args) : Args :=
  {| copilot := copilot a; stateFile := stateFile a;
     promptPatterns := promptPatterns a; copilotArgs := forwarded |}.

Definition Completion_map (A B : Type) (f : A -> B) (c : Completion A) : Completion B :=
  match c with
  | Normal a => Normal (f a)
  | Throw e => Throw e
  | Exit n => Exit n
  end.

(** The three prompts the built-in patterns are written for. *)
Definition default_prompt_texts : list str := [lit ">"; lit "copilot>"; [10095%N]].

(** *** Polling the hook state file *)

(** [let hookState: HookState = "unknown"; let hookMtime = null;] *)
Definition initial_HookVars : HookVars :=
  {| var_hookState := unknown; var_hookMtime := None |}.

(** The calls of [refreshHookState()] made at start-up and then by
    [setInterval]: one per tick, each on the file system as it is at
    that tick. *)
Fixpoint polls (ticks : list FileSystem) (stateFile : str) (v : HookVars)
    : HookVars * list FsCall :=
  match ticks with
  | [] => (v, [])
  | fs :: later =>
      let (v1, log1) := refreshHookState fs stateFile v in
      let (v2, log2) := polls later stateFile v1 in
      (v2, log1 ++ log2)
  end.

(** The state a content declares: it parses to a value whose [state] is
    ["busy"] or ["idle"]. *)
Definition content_state (raw : str) : option HookState :=
  match JSON_parse raw with
  | Normal v =>
      match get_state v with
      | Normal st => recognized_state st
      | _ => None
      end
  | _ => None
  end.

(** *** The hook script, [src/scripts/copilot-hook.sh]

    [printf '{"state":"%s","timestamp":%s}\n' "$STATE" "$(date +%s)"] *)
Definition hook_output (STATE now : str) : str :=
  dq "{'state':'" ++ STATE ++ dq "','timestamp':" ++ now ++ lit "}" ++ [LF].

(** The script: with no or an empty first argument it prints its usage
    and exits with status 1, leaving the file alone ([None]); otherwise
    it replaces the content of the state file. *)
Definition copilot_hook (arg1 : option str) (now : str) : option str :=
  if truthy arg1 then Some (hook_output (option_str arg1) now) else None.

(** What [date +%s] prints: a decimal numeral without leading zero. *)
Definition decimal (now : str) : bool :=
  match now with
  | [] => false
  | [d] => is_digit d
  | d :: ds => is_digit d && negb (N.eqb d 48) && forallb is_digit ds
  end.

(** What [refreshHookState] does with an answer that carries the
    previous timestamp: nothing when a timestamp is stored, and a reset
    when none is. *)
Definition keep_or_reset (v : HookVars) : HookVars :=
  match var_hookMtime v with
  | Some _ => v
  | None => initial_HookVars
  end.

(** What it does after an exception. *)
Definition after_exception (e : Exn) (v : HookVars) : HookVars :=
  if not_ENOENT e then keep_or_reset v else initial_HookVars.

(** The stored state is backed by a file: it is [unknown], or some tick
    of [ticks] found the file with the stored modification time and with
    a content that declares the stored state. *)
Definition backed_by (ticks : list FileSystem) (path : str) (v : HookVars) : Prop :=
  (var_hookMtime v = None -> var_hookState v = unknown)
  /\ (var_hookState v <> unknown ->
      exists fs m raw,
        In fs ticks /\ statSync fs path = Normal m /\ readFileSync fs path = Normal raw
        /\ content_state raw = Some (var_hookState v) /\ var_hookMtime v = Some m).

(** A text that [printf] can put between the quotation marks of a JSON
    string as it is: no quotation mark, no backslash and no control
    character. *)
Definition plain_text (s : str) : bool :=
  forallb (fun c => negb (N.eqb c 34) && negb (N.eqb c 92) && negb (N.ltb c 32)) s.

(** *** The game pane *)

(** The values of the counter of [for (let i = 0; i < n; i += 1)]. *)
Definition upto (n : Z) : list Z := map Z.of_nat (seq 0 (Z.to_nat n)).

(** The character [Game.render] writes for the cell in column [cx] of
    row [cy]: [@], [*] or [.]. *)
Definition render_cell (g : Game.t) (cx cy : Z) : char :=
  if Z.eqb cx (Game.x (Game.player g)) && Z.eqb cy (Game.y (Game.player g)) then 64%N
  else if Z.eqb cx (Game.x (Game.target g)) && Z.eqb cy (Game.y (Game.target g)) then 42%N
  else 46%N.

(** [Game.render()] *)
Definition Game_render (g : Game.t) : list str :=
  map (fun cy => map (fun cx => render_cell g cx cy) (upto (Game.width g)))
      (upto (Game.height g)).

(** What [layout()] assigns, for a screen of the given width and height.
    The boxes give back the numbers they were given. *)
Record Layout := {
  logBox_height : Z;
  gameBox_height : Z;
  gameBox_top : Z;
  logBox_width : Z;
  gameBox_width : Z;
  pty_cols : Z;
  pty_rows : Z
}.

Definition layout (screen_width screen_height : Z) : Layout :=
  let gameHeight := Z.max 8 (screen_height / 3) in
  let logHeight := (screen_height - gameHeight)%Z in
  {| logBox_height := logHeight;
     gameBox_height := gameHeight;
     gameBox_top := logHeight;
     logBox_width := screen_width;
     gameBox_width := screen_width;
     pty_cols := Z.max 20 (screen_width - 2);
     pty_rows := Z.max 5 (logHeight - 2) |}.

(** The arguments of [game.resize] in [render()], when it is called. *)
Definition render_game_size (l : Layout) : option (Z * Z) :=
  let gameWidth := (gameBox_width l - 2)%Z in
  let gameHeight := (gameBox_height l - 4)%Z in
  if Z.ltb 4 gameWidth && Z.ltb 4 gameHeight
  then Some (Z.min 30 gameWidth, Z.min 12 gameHeight)
  else None.

(** What [render()] does to the game. *)
Definition render_game (screen_width screen_height : Z) (g : Game.t) (rng : list Q)
    : option (Game.t * list Q) :=
  match render_game_size (layout screen_width screen_height) with
  | Some (w, h) => Game.resize g w h rng
  | None => Some (g, rng)
  end.

(** The same game with another target. *)
Definition with_target (t : Game.pos) (g : Game.t) : Game.t :=
  {| Game.width := Game.width g; Game.height := Game.height g;
     Game.player := Game.player g; Game.target := t; Game.score := Game.score g |}.

(* ===================================================================== *)
(** * Part II: properties *)
(* ===================================================================== *)

Unset Implicit Arguments.

(** ** Strings *)

Lemma str_eqb_eq (a b : str) : str_eqb a b = true <-> a = b.
Proof.
  revert b; induction a as [|x a IH]; intros [|y b]; simpl; split; intro H;
    try reflexivity; try discriminate.
  - apply andb_true_iff in H as [Hx Hab].
    apply N.eqb_eq in Hx. apply IH in Hab. now subst.
  - injection H as -> ->. rewrite N.eqb_refl. simpl. now apply IH.
Qed.

Lemma str_eqb_refl (a : str) : str_eqb a a = true.
Proof. now apply str_eqb_eq. Qed.

Lemma str_eqb_neq (a b : str) : str_eqb a b = false <-> a <> b.
Proof.
  split.
  - intros H E. apply str_eqb_eq in E. congruence.
  - intro H. destruct (str_eqb a b) eqn:E; [|reflexivity].
    apply str_eqb_eq in E. contradiction.
Qed.

(** ** Focus *)

(** C1.  Whatever the manual override, the prompt flag and the hook state
    are, the focus that [render] and the keypress handler compute is the
    override when there is one, and otherwise the copilot pane if the
    prompt was detected or the hook state is idle, and the game if not;
    the status is PAUSED exactly when the prompt was detected or the hook
    state is idle.  With no override, no prompt and a busy hook state the
    result is (game, RUNNING), and with the prompt flag set it is
    (copilot, PAUSED). *)
Theorem focus_is_override_else_waiting :
  forall (override : option Focus) (prompt : bool) (hook : HookState),
    let st := {| promptDetected := prompt; hookState := hook; manualFocus := override |} in
    render_focus_status st = (arbiter_focus override prompt hook, arbiter_status prompt hook)
    /\ keypress_focus st = arbiter_focus override prompt hook
    /\ (snd (render_focus_status st) = PAUSED <-> (prompt = true \/ hook = idle))
    /\ (arbiter_waiting prompt hook = true <-> (prompt = true \/ hook = idle))
    /\ render_focus_status
         {| promptDetected := false; hookState := busy; manualFocus := None |}
       = (focus_game, RUNNING)
    /\ render_focus_status
         {| promptDetected := true; hookState := busy; manualFocus := None |}
       = (focus_copilot, PAUSED).
Proof.
  intros override prompt hook st; subst st.
  unfold render_focus_status, keypress_focus, arbiter_focus, arbiter_status; simpl.
  repeat split;
    destruct override as [[|]|], prompt, hook; simpl; try reflexivity;
    try (intro H; try discriminate H; auto; fail);
    try (intros [H|H]; discriminate H).
Qed.

(** ** Key forwarding *)

Lemma name_is_true (key : IKeyEventArg) (s : str) :
  name_is key s = true <-> name key = Some s.
Proof.
  unfold name_is. destruct (name key) as [n|]; split; intro H; try discriminate.
  - apply str_eqb_eq in H. now subst.
  - injection H as ->. apply str_eqb_refl.
Qed.

Lemma sendToCopilot_at_most_one (key : IKeyEventArg) (ch : option str) :
  (length (sendToCopilot key ch) <= 1)%nat.
Proof.
  unfold sendToCopilot.
  repeat match goal with
         | |- context [if ?b then _ else _] => destruct b
         end; simpl; lia.
Qed.

Lemma sendToCopilot_one_iff (key : IKeyEventArg) (ch : option str) :
  length (sendToCopilot key ch) = 1%nat
  <-> (named_key key = true \/ truthy (sequence key) = true \/ truthy ch = true).
Proof.
  unfold sendToCopilot, named_key.
  destruct (name_is key (lit "enter")); [simpl; tauto|].
  destruct (name_is key (lit "backspace")); [simpl; tauto|].
  destruct (name_is key (lit "up")); [simpl; tauto|].
  destruct (name_is key (lit "down")); [simpl; tauto|].
  destruct (name_is key (lit "left")); [simpl; tauto|].
  destruct (name_is key (lit "right")); [simpl; tauto|].
  destruct (truthy (sequence key)); [simpl; tauto|].
  destruct (truthy ch); simpl; [tauto|].
  split; [discriminate|]. intros [H|[H|H]]; discriminate.
Qed.

Lemma sendToCopilot_named (key : IKeyEventArg) (ch : option str) (n : str) :
  name key = Some n ->
  (n = lit "enter" -> sendToCopilot key ch = [[CR]])
  /\ (n = lit "backspace" -> sendToCopilot key ch = [[127%N]])
  /\ (n = lit "up" -> sendToCopilot key ch = [ESC :: lit "[A"])
  /\ (n = lit "down" -> sendToCopilot key ch = [ESC :: lit "[B"])
  /\ (n = lit "right" -> sendToCopilot key ch = [ESC :: lit "[C"])
  /\ (n = lit "left" -> sendToCopilot key ch = [ESC :: lit "[D"]).
Proof.
  intro Hn. unfold sendToCopilot, name_is. rewrite Hn.
  repeat split; intros ->; reflexivity.
Qed.

Lemma sendToCopilot_unnamed (key : IKeyEventArg) (ch : option str) :
  named_key key = false ->
  sendToCopilot key ch =
    match sequence key, ch with
    | Some (c :: s), _ => [c :: s]
    | _, Some (c :: s) => [c :: s]
    | _, _ => []
    end.
Proof.
  unfold named_key, sendToCopilot. intro H.
  repeat (apply orb_false_iff in H; destruct H as [H ?]).
  rewrite H.
  repeat match goal with
         | E : name_is _ _ = false |- _ => rewrite E; clear E
         end.
  destruct (sequence key) as [[|c s]|]; simpl; destruct ch as [[|c' s']|]; reflexivity.
Qed.

(** X24.  A key event that arrives while the focus is on copilot is
    handed to [sendToCopilot], which writes at most once to the
    pseudo-terminal in that call: carriage return for enter, DEL for backspace,
    the ANSI sequence of an arrow key, else the key's sequence when it is
    not empty, else the character when there is one.  It writes exactly
    once if and only if the key is one of the six named keys or its
    sequence is not empty or the character is present and not empty;
    otherwise it writes nothing. *)
Theorem forwarded_key_writes_at_most_once :
  forall (st : Signals) (key : IKeyEventArg) (ch : option str),
    keypress_focus st = focus_copilot ->
    let writes := sendToCopilot key ch in
    keypress st ch key = ToCopilot writes
    /\ (length writes <= 1)%nat
    /\ (length writes = 1%nat
        <-> (named_key key = true \/ truthy (sequence key) = true \/ truthy ch = true))
    /\ (name key = Some (lit "enter") -> writes = [[CR]])
    /\ (name key = Some (lit "backspace") -> writes = [[127%N]])
    /\ (name key = Some (lit "up") -> writes = [ESC :: lit "[A"])
    /\ (name key = Some (lit "down") -> writes = [ESC :: lit "[B"])
    /\ (name key = Some (lit "right") -> writes = [ESC :: lit "[C"])
    /\ (name key = Some (lit "left") -> writes = [ESC :: lit "[D"])
    /\ (named_key key = false ->
        forall s, sequence key = Some s -> s <> [] -> writes = [s])
    /\ (named_key key = false -> truthy (sequence key) = false ->
        forall c, ch = Some c -> c <> [] -> writes = [c])
    /\ (named_key key = false -> truthy (sequence key) = false -> truthy ch = false ->
        writes = []).
Proof.
  intros st key ch Hfocus writes; subst writes.
  split; [unfold keypress; now rewrite Hfocus|].
  split; [apply sendToCopilot_at_most_one|].
  split; [apply sendToCopilot_one_iff|].
  repeat split.
  1-6: intro Hn; destruct (sendToCopilot_named key ch _ Hn) as (E & B & U & D & R & L); auto.
  - intros Hk s Hs Hne. rewrite (sendToCopilot_unnamed _ _ Hk), Hs.
    destruct s; [contradiction|reflexivity].
  - intros Hk Hseq c Hc Hne. rewrite (sendToCopilot_unnamed _ _ Hk), Hc.
    destruct (sequence key) as [[|? ?]|]; try discriminate;
      (destruct c; [contradiction|reflexivity]).
  - intros Hk Hseq Hch. rewrite (sendToCopilot_unnamed _ _ Hk).
    destruct (sequence key) as [[|? ?]|]; try discriminate;
      destruct ch as [[|? ?]|]; try discriminate; reflexivity.
Qed.

(** The theorem at the letter [x] typed while the prompt is showing. *)
Lemma forwarded_key_writes_at_most_once_witness :
  keypress {| promptDetected := true; hookState := unknown; manualFocus := None |}
           (Some (lit "x")) {| name := Some (lit "x"); sequence := Some (lit "x") |}
  = ToCopilot [lit "x"].
Proof.
  exact (proj1 (forwarded_key_writes_at_most_once
                  {| promptDetected := true; hookState := unknown; manualFocus := None |}
                  {| name := Some (lit "x"); sequence := Some (lit "x") |}
                  (Some (lit "x")) eq_refl)).
Defined.




(** ** Prompt detector *)

Lemma detectPrompt_from_prefix (l r : list str) (patterns : list RegExp) (n : nat) :
  (n <= length l)%nat ->
  detectPrompt_from (l ++ r) patterns n = detectPrompt_from l patterns n.
Proof.
  induction n as [|i IH]; intro Hn; simpl; [reflexivity|].
  rewrite app_nth1 by lia. rewrite IH by lia. reflexivity.
Qed.

(** The loop looks at the last line first. *)
Lemma detectPrompt_snoc (l : list str) (a : str) (patterns : list RegExp) :
  detectPrompt (l ++ [a]) patterns =
    match trim a with
    | [] => detectPrompt l patterns
    | c :: line => existsb (fun pattern => test pattern (c :: line)) patterns
    end.
Proof.
  unfold detectPrompt. rewrite length_app, Nat.add_comm. simpl.
  rewrite app_nth2 by lia. rewrite Nat.sub_diag. simpl.
  destruct (trim a); [|reflexivity].
  apply detectPrompt_from_prefix. lia.
Qed.

Lemma last_nonblank_snoc (l : list str) (a : str) :
  last_nonblank (l ++ [a]) =
    match trim a with
    | [] => last_nonblank l
    | c :: line => Some (c :: line)
    end.
Proof.
  unfold last_nonblank. rewrite map_app, rev_app_distr. simpl.
  destruct (trim a); reflexivity.
Qed.

Lemma detectPrompt_last_nonblank (lines : list str) (patterns : list RegExp) :
  detectPrompt lines patterns =
    match last_nonblank lines with
    | Some line => existsb (fun pattern => test pattern line) patterns
    | None => false
    end.
Proof.
  induction lines as [|a l IH] using rev_ind; [reflexivity|].
  rewrite detectPrompt_snoc, last_nonblank_snoc.
  destruct (trim a); [exact IH|reflexivity].
Qed.

Lemma last_nonblank_all_blank (lines : list str) :
  Forall blank lines -> last_nonblank lines = None.
Proof.
  induction lines as [|a l IH] using rev_ind; intro H; [reflexivity|].
  apply Forall_app in H as [Hl Ha]. inversion Ha as [|? ? Hb _]; subst.
  rewrite last_nonblank_snoc. unfold blank in Hb. rewrite Hb. auto.
Qed.

Lemma last_nonblank_found (pre post : list str) (l : str) :
  ~ blank l -> Forall blank post ->
  last_nonblank (pre ++ l :: post) = Some (trim l).
Proof.
  intros Hl. induction post as [|a post IH] using rev_ind; intro Hpost.
  - change (pre ++ [l]) with (pre ++ [l]). rewrite last_nonblank_snoc.
    unfold blank in Hl. destruct (trim l); [contradiction|reflexivity].
  - apply Forall_app in Hpost as [Hp Ha]. inversion Ha as [|? ? Hb _]; subst.
    replace (pre ++ l :: post ++ [a]) with ((pre ++ l :: post) ++ [a])
      by (rewrite <- app_assoc; reflexivity).
    rewrite last_nonblank_snoc. unfold blank in Hb. rewrite Hb. auto.
Qed.

(** C6.  [detectPrompt] walks the lines from the last one backward, skips
    the lines that are empty after trimming, and answers for the first
    other line it meets: true if and only if some pattern matches that
    line, trimmed.  It answers false when every line is blank and when
    there is no line.  With the three built-in patterns the lines
    ["", "  ", "copilot> "] give true and ["hello world"] gives false. *)
Theorem detectPrompt_tests_last_nonblank_line :
  (forall (pre post : list str) (l : str) (patterns : list RegExp),
      ~ blank l -> Forall blank post ->
      detectPrompt (pre ++ l :: post) patterns
      = existsb (fun pattern => test pattern (trim l)) patterns
      /\ (detectPrompt (pre ++ l :: post) patterns = true
          <-> exists pattern, In pattern patterns /\ test pattern (trim l) = true))
  /\ (forall (lines : list str) (patterns : list RegExp),
         Forall blank lines -> detectPrompt lines patterns = false)
  /\ (forall patterns : list RegExp, detectPrompt [] patterns = false)
  /\ detectPrompt [lit ""; lit "  "; lit "copilot> "] DEFAULT_PROMPTS = true
  /\ detectPrompt [lit "hello world"] DEFAULT_PROMPTS = false.
Proof.
  split; [|split; [|split; [|split]]].
  - intros pre post l patterns Hl Hpost.
    assert (E : detectPrompt (pre ++ l :: post) patterns
                = existsb (fun pattern => test pattern (trim l)) patterns).
    { rewrite detectPrompt_last_nonblank, (last_nonblank_found pre post l Hl Hpost).
      reflexivity. }
    split; [exact E|]. rewrite E. apply existsb_exists.
  - intros lines patterns H.
    rewrite detectPrompt_last_nonblank, (last_nonblank_all_blank lines H). reflexivity.
  - reflexivity.
  - reflexivity.
  - reflexivity.
Qed.

(** The theorem at the lines ["> ", "   "] and the built-in patterns. *)
Lemma detectPrompt_tests_last_nonblank_line_witness :
  detectPrompt ([] ++ lit "> " :: [lit "   "]) DEFAULT_PROMPTS
  = existsb (fun pattern => test pattern (trim (lit "> "))) DEFAULT_PROMPTS.
Proof.
  refine (proj1 (proj1 detectPrompt_tests_last_nonblank_line
                   [] [lit "   "] (lit "> ") DEFAULT_PROMPTS _ _)).
  - unfold blank. vm_compute. discriminate.
  - repeat constructor.
Defined.

(** ** Output buffer *)

Section SliceLast.

Variable A : Type.

Lemma slice_last_length (n : nat) (l : list A) :
  length (slice_last n l) = Nat.min n (length l).
Proof. unfold slice_last. rewrite length_skipn. lia. Qed.

Lemma slice_last_short (n : nat) (l : list A) :
  (length l <= n)%nat -> slice_last n l = l.
Proof.
  intro H. unfold slice_last.
  replace (length l - n)%nat with 0%nat by lia. reflexivity.
Qed.

Lemma slice_last_suffix (n : nat) (l : list A) :
  exists dropped, l = dropped ++ slice_last n l.
Proof.
  exists (firstn (length l - n) l). unfold slice_last.
  symmetry. apply firstn_skipn.
Qed.

(** The [if] around the truncation changes nothing. *)
Lemma truncate_slice_last (n : nat) (l : list A) :
  (if Nat.ltb n (length l) then slice_last n l else l) = slice_last n l.
Proof.
  destruct (Nat.ltb_spec n (length l)) as [H|H]; [reflexivity|].
  symmetry. now apply slice_last_short.
Qed.

(** Truncating, inserting and truncating again is truncating once. *)
Lemma slice_last_app (n : nat) (l r : list A) :
  slice_last n (slice_last n l ++ r) = slice_last n (l ++ r).
Proof.
  unfold slice_last.
  set (k := (length l - n)%nat).
  assert (E : skipn k l ++ r = skipn k (l ++ r)).
  { rewrite skipn_app. replace (k - length l)%nat with 0%nat by lia. reflexivity. }
  rewrite E, skipn_skipn. f_equal.
  rewrite length_skipn, !length_app. lia.
Qed.

End SliceLast.

Lemma split_nl_nonempty (s : str) : split_nl s <> [].
Proof.
  destruct s as [|c r]; simpl; [discriminate|].
  destruct (N.eqb c LF); [discriminate|].
  destruct (split_nl r); discriminate.
Qed.

Lemma append_as_parts (b : OutputBuffer.t) (text : str) :
  OutputBuffer.append b text = append_parts b (split_nl (OutputBuffer.cleaned text)).
Proof.
  unfold OutputBuffer.append.
  pose proof (split_nl_nonempty (OutputBuffer.cleaned text)) as Hne.
  destruct (split_nl (OutputBuffer.cleaned text)) as [|first [|second more]];
    [contradiction|reflexivity|].
  cbn [length Nat.eqb hd tl append_parts].
  rewrite truncate_slice_last. rewrite <- app_assoc. reflexivity.
Qed.

Lemma append_lines (b : OutputBuffer.t) (text : str) :
  (length (OutputBuffer.lines b) <= 2000)%nat ->
  OutputBuffer.lines (OutputBuffer.append b text)
  = slice_last 2000 (OutputBuffer.lines b ++ completed_lines b text).
Proof.
  intro H. rewrite append_as_parts. unfold completed_lines, append_parts.
  pose proof (split_nl_nonempty (OutputBuffer.cleaned text)) as Hne.
  destruct (split_nl (OutputBuffer.cleaned text)) as [|first [|second more]];
    [contradiction| |reflexivity].
  simpl. rewrite app_nil_r. symmetry. now apply slice_last_short.
Qed.

Lemma append_bounded (b : OutputBuffer.t) (text : str) :
  (length (OutputBuffer.lines b) <= 2000)%nat ->
  (length (OutputBuffer.lines (OutputBuffer.append b text)) <= 2000)%nat.
Proof.
  intro H. rewrite (append_lines b text H), slice_last_length. lia.
Qed.

Lemma feed_snoc (b : OutputBuffer.t) (chunks : list str) (text : str) :
  OutputBuffer.feed b (chunks ++ [text]) = OutputBuffer.append (OutputBuffer.feed b chunks) text.
Proof. unfold OutputBuffer.feed. now rewrite fold_left_app. Qed.

Lemma feed_bounded (chunks : list str) :
  (length (OutputBuffer.lines (OutputBuffer.feed OutputBuffer.empty chunks)) <= 2000)%nat.
Proof.
  induction chunks as [|text chunks IH] using rev_ind.
  - simpl. lia.
  - rewrite feed_snoc. now apply append_bounded.
Qed.

(** C3.  After any sequence of [append] calls on a new buffer, and one
    more call with any chunk, the buffer holds at most 2000 completed
    lines.  The lines it holds are the last 2000 of the lines held before
    followed by the lines the call completes: all of them when that makes
    at most 2000, and exactly the most recent 2000 when it makes more;
    the older ones are dropped, and the call always returns a buffer. *)
Theorem buffer_keeps_last_2000_lines :
  forall (chunks : list str) (text : str),
    let b := OutputBuffer.feed OutputBuffer.empty chunks in
    let b' := OutputBuffer.append b text in
    let pushed := OutputBuffer.lines b ++ completed_lines b text in
    (length (OutputBuffer.lines b') <= 2000)%nat
    /\ OutputBuffer.lines b' = slice_last 2000 pushed
    /\ ((length pushed <= 2000)%nat -> OutputBuffer.lines b' = pushed)
    /\ ((2000 < length pushed)%nat ->
        length (OutputBuffer.lines b') = 2000%nat
        /\ OutputBuffer.lines b' = skipn (length pushed - 2000) pushed)
    /\ (exists dropped, pushed = dropped ++ OutputBuffer.lines b').
Proof.
  intros chunks text b b' pushed.
  pose proof (feed_bounded chunks) as Hb. fold b in Hb.
  assert (E : OutputBuffer.lines b' = slice_last 2000 pushed)
    by (apply append_lines; exact Hb).
  split; [apply append_bounded; exact Hb|].
  split; [exact E|].
  split; [intro H; rewrite E; now apply slice_last_short|].
  split.
  - intro H. rewrite E, slice_last_length. split; [lia|reflexivity].
  - rewrite E. apply slice_last_suffix.
Qed.

(** *** Stripping control sequences *)

Lemma skip_params_length (s : str) : (length (skip_params s) <= length s)%nat.
Proof.
  induction s as [|c r IH]; simpl; [lia|].
  destruct (is_param c); simpl; lia.
Qed.

Lemma skip_params_is_suffix (s : str) : exists pre, s = pre ++ skip_params s.
Proof.
  induction s as [|c r [pre IH]]; simpl.
  - exists []. reflexivity.
  - destruct (is_param c).
    + exists (c :: pre). simpl. now rewrite <- IH.
    + exists []. reflexivity.
Qed.

(** A match is a non-empty prefix. *)
Lemma match_ANSI_RE_is_suffix (s rest : str) :
  match_ANSI_RE s = Some rest -> exists pre, s = pre ++ rest /\ pre <> [].
Proof.
  unfold match_ANSI_RE.
  destruct s as [|c1 [|c2 r]]; try discriminate.
  destruct (N.eqb c1 ESC && N.eqb c2 LBRACKET); try discriminate.
  destruct (skip_params_is_suffix r) as [pre Hpre].
  destruct (skip_params r) as [|c r'] eqn:E; try discriminate.
  destruct (is_alpha c); try discriminate.
  intro H; injection H as <-.
  exists (c1 :: c2 :: pre ++ [c]). split; [|discriminate].
  simpl. rewrite <- app_assoc. simpl. now rewrite <- Hpre.
Qed.

Lemma match_ANSI_RE_shorter (s rest : str) :
  match_ANSI_RE s = Some rest -> (length rest < length s)%nat.
Proof.
  intro H. destruct (match_ANSI_RE_is_suffix s rest H) as (pre & -> & Hne).
  rewrite length_app. destruct pre; [contradiction|simpl; lia].
Qed.

(** Any fuel that covers the text gives the same result. *)
Lemma replace_ANSI_RE_fuel (fuel fuel' : nat) (s : str) :
  (length s <= fuel)%nat -> (length s <= fuel')%nat ->
  replace_ANSI_RE fuel s = replace_ANSI_RE fuel' s.
Proof.
  revert fuel' s. induction fuel as [|fuel IH]; intros fuel' s H H'.
  - destruct s; [|simpl in H; lia]. destruct fuel'; reflexivity.
  - destruct fuel' as [|fuel']; [destruct s; [reflexivity|simpl in H'; lia]|].
    destruct s as [|c r]; [reflexivity|].
    cbn [replace_ANSI_RE].
    destruct (match_ANSI_RE (c :: r)) as [rest|] eqn:E.
    + apply match_ANSI_RE_shorter in E. simpl in *. apply IH; lia.
    + f_equal. simpl in *. apply IH; lia.
Qed.

Lemma strip_ansi_nil : strip_ansi [] = [].
Proof. reflexivity. Qed.

Lemma strip_ansi_cons (c : char) (r : str) :
  strip_ansi (c :: r) =
    match match_ANSI_RE (c :: r) with
    | Some rest => strip_ansi rest
    | None => c :: strip_ansi r
    end.
Proof.
  unfold strip_ansi. cbn [length replace_ANSI_RE].
  destruct (match_ANSI_RE (c :: r)) as [rest|] eqn:E; [|reflexivity].
  apply match_ANSI_RE_shorter in E. simpl in E.
  apply replace_ANSI_RE_fuel; lia.
Qed.

Lemma skip_params_app (r rest b : str) (c : char) :
  skip_params r = c :: rest -> skip_params (r ++ b) = c :: rest ++ b.
Proof.
  induction r as [|d r IH]; simpl; [discriminate|].
  destruct (is_param d); [exact IH|].
  intro H; injection H as <- <-. reflexivity.
Qed.

Lemma skip_params_nil (r : str) : skip_params r = [] <-> forallb is_param r = true.
Proof.
  induction r as [|d r IH]; simpl; [tauto|].
  destruct (is_param d); simpl; [exact IH|].
  split; discriminate.
Qed.

(** A match inside a chunk is the same match when more text follows. *)
Lemma match_ANSI_RE_app (a rest b : str) :
  match_ANSI_RE a = Some rest -> match_ANSI_RE (a ++ b) = Some (rest ++ b).
Proof.
  unfold match_ANSI_RE.
  destruct a as [|c1 [|c2 r]]; try discriminate. simpl.
  destruct (N.eqb c1 ESC && N.eqb c2 LBRACKET); try discriminate.
  destruct (skip_params r) as [|c r'] eqn:E; try discriminate.
  rewrite (skip_params_app r r' b c E).
  destruct (is_alpha c); try discriminate.
  intro H; injection H as <-. reflexivity.
Qed.

(** Where a chunk has no match at its head and is not itself the start of
    a control sequence, text that follows cannot create a match there. *)
Lemma match_ANSI_RE_none_app (a b : str) :
  a <> [] -> match_ANSI_RE a = None -> csi_prefix a = false ->
  match_ANSI_RE (a ++ b) = None.
Proof.
  intros Hne Hm Hp. unfold match_ANSI_RE, csi_prefix in *.
  destruct a as [|c1 [|c2 r]]; [contradiction| |].
  - simpl. rewrite Hp. simpl. destruct b; reflexivity.
  - simpl. destruct (N.eqb c1 ESC && N.eqb c2 LBRACKET); [|reflexivity].
    simpl in Hp.
    destruct (skip_params r) as [|c r'] eqn:E.
    + apply skip_params_nil in E. congruence.
    + rewrite (skip_params_app r r' b c E).
      destruct (is_alpha c); [discriminate|reflexivity].
Qed.

Lemma straddles_suffix (pre s b : str) :
  straddles (pre ++ s) b = false -> straddles s b = false.
Proof.
  induction pre as [|c pre IH]; simpl; [auto|].
  intro H. apply orb_false_iff in H as [_ H]. auto.
Qed.

(** A chunk that does not end inside a control sequence has none cut by
    its end. *)
Lemma no_csi_prefix_no_straddle (a b : str) :
  ends_in_csi_prefix a = false -> straddles a b = false.
Proof.
  induction a as [|c r IH]; [reflexivity|].
  cbn [ends_in_csi_prefix straddles]. intro H.
  apply orb_false_iff in H as [Hp Hr]. rewrite (IH Hr), orb_false_r.
  destruct (match_ANSI_RE (c :: r)) as [rest|] eqn:E; [reflexivity|].
  rewrite (match_ANSI_RE_none_app (c :: r) b); [reflexivity|discriminate|exact E|exact Hp].
Qed.

(** Stripping the control sequences commutes with cutting the text at a
    place where no control sequence is cut. *)
Lemma strip_ansi_app (a b : str) :
  straddles a b = false -> strip_ansi (a ++ b) = strip_ansi a ++ strip_ansi b.
Proof.
  remember (length a) as n eqn:Hn. revert a Hn.
  induction n as [n IH] using lt_wf_ind. intros a Hn Hp.
  destruct a as [|c r]; [reflexivity|].
  change ((c :: r) ++ b) with (c :: r ++ b).
  rewrite (strip_ansi_cons c (r ++ b)), (strip_ansi_cons c r).
  change (c :: r ++ b) with ((c :: r) ++ b).
  destruct (match_ANSI_RE (c :: r)) as [rest|] eqn:E.
  - rewrite (match_ANSI_RE_app _ _ b E).
    pose proof (match_ANSI_RE_shorter _ _ E) as Hlen.
    destruct (match_ANSI_RE_is_suffix _ _ E) as (pre & Hpre & _).
    apply (IH (length rest)); [lia|reflexivity|].
    rewrite Hpre in Hp. now apply straddles_suffix in Hp.
  - cbn [straddles] in Hp. rewrite E in Hp.
    apply orb_false_iff in Hp as [Hp1 Hp2].
    destruct (match_ANSI_RE ((c :: r) ++ b)); [discriminate|].
    simpl. f_equal. apply (IH (length r)); [subst n; simpl; lia|reflexivity|exact Hp2].
Qed.

Lemma strip_cr_app (a b : str) : strip_cr (a ++ b) = strip_cr a ++ strip_cr b.
Proof. apply filter_app. Qed.

Lemma cleaned_app (a b : str) :
  straddles a b = false ->
  OutputBuffer.cleaned (a ++ b) = OutputBuffer.cleaned a ++ OutputBuffer.cleaned b.
Proof.
  intro H. unfold OutputBuffer.cleaned. now rewrite strip_ansi_app, strip_cr_app.
Qed.

(** *** Splitting into lines *)

Lemma split_nl_app (a b : str) :
  split_nl (a ++ b) = join_parts (split_nl a) (split_nl b).
Proof.
  unfold join_parts. induction a as [|c r IH].
  - simpl. pose proof (split_nl_nonempty b). destruct (split_nl b); [contradiction|reflexivity].
  - change ((c :: r) ++ b) with (c :: r ++ b). cbn [split_nl].
    rewrite IH. clear IH.
    pose proof (split_nl_nonempty r) as Hr.
    destruct (N.eqb c LF).
    + destruct (split_nl r) as [|seg segs]; [contradiction|]. reflexivity.
    + destruct (split_nl r) as [|seg [|seg' segs]]; [contradiction| |]; reflexivity.
Qed.

Lemma append_parts_many (b : OutputBuffer.t) (first : str) (more : list str) :
  more <> [] ->
  append_parts b (first :: more)
  = {| OutputBuffer.lines :=
         slice_last 2000
           (OutputBuffer.lines b ++ (OutputBuffer.partial b ++ first) :: removelast more);
       OutputBuffer.partial := last more [] |}.
Proof. destruct more; [contradiction|reflexivity]. Qed.

Lemma removelast_cons (A : Type) (x : A) (l : list A) :
  l <> [] -> removelast (x :: l) = x :: removelast l.
Proof. destruct l; [contradiction|reflexivity]. Qed.

Lemma last_cons (A : Type) (x d : A) (l : list A) :
  l <> [] -> last (x :: l) d = last l d.
Proof. destruct l; [contradiction|reflexivity]. Qed.

Lemma last_app_nonempty (A : Type) (d : A) (l r : list A) :
  r <> [] -> last (l ++ r) d = last r d.
Proof.
  intro H. induction l as [|a l IH]; [reflexivity|].
  simpl. rewrite IH. destruct (l ++ r) eqn:E; [|reflexivity].
  apply app_eq_nil in E as [_ E]. contradiction.
Qed.

(** Feeding the segments of two halves one after the other is feeding the
    segments of the whole. *)
Lemma append_parts_join (b : OutputBuffer.t) (pa pb : list str) :
  pa <> [] -> pb <> [] ->
  append_parts (append_parts b pa) pb = append_parts b (join_parts pa pb).
Proof.
  intros Ha Hb. unfold join_parts.
  destruct pa as [|a0 ma]; [contradiction|].
  destruct pb as [|b0 mb]; [contradiction|].
  cbn [hd tl].
  destruct ma as [|a1 ma'] eqn:Ema; destruct mb as [|b1 mb'] eqn:Emb.
  - simpl. now rewrite app_assoc.
  - rewrite <- Emb. assert (Hmb : mb <> []) by (subst; discriminate).
    cbn [removelast last app].
    rewrite (append_parts_many _ b0 mb Hmb), (append_parts_many b _ mb Hmb).
    simpl. now rewrite app_assoc.
  - rewrite <- Ema. assert (Hma : ma <> []) by (subst; discriminate).
    rewrite removelast_cons, last_cons by exact Hma.
    cbn [app].
    rewrite (append_parts_many b a0 ma Hma).
    set (x := last ma [] ++ b0).
    assert (Hx : removelast ma ++ [x] <> []) by (destruct (removelast ma); discriminate).
    rewrite (append_parts_many b a0 _ Hx).
    rewrite removelast_last, last_last. reflexivity.
  - rewrite <- Ema, <- Emb.
    assert (Hma : ma <> []) by (subst; discriminate).
    assert (Hmb : mb <> []) by (subst; discriminate).
    rewrite removelast_cons, last_cons by exact Hma.
    cbn [app].
    rewrite (append_parts_many b a0 ma Hma).
    rewrite (append_parts_many _ b0 mb Hmb).
    set (x := last ma [] ++ b0).
    assert (Hx : removelast ma ++ x :: mb <> []) by (destruct (removelast ma); discriminate).
    rewrite (append_parts_many b a0 _ Hx).
    cbn [OutputBuffer.lines OutputBuffer.partial].
    rewrite slice_last_app.
    rewrite removelast_app by discriminate.
    rewrite last_app_nonempty by discriminate.
    rewrite (removelast_cons _ _ _ Hmb), (last_cons _ _ _ _ Hmb).
    rewrite <- app_assoc. reflexivity.
Qed.

(** C2, as the program has it.  When no control sequence is cut by the
    boundary between the two chunks (none starts in the first chunk and
    ends in the second), appending the chunks one after the other leaves
    the buffer in the same state as appending their concatenation: the
    same completed lines and the same partial line.  This is so, for any
    second chunk, when the first chunk does not end in [ESC] or in
    [ESC [] followed by parameter characters only. *)
Theorem append_split_chunk :
  forall (b : OutputBuffer.t) (A B : str),
    straddles A B = false ->
    OutputBuffer.append (OutputBuffer.append b A) B = OutputBuffer.append b (A ++ B).
Proof.
  intros b A B H.
  rewrite !append_as_parts, (cleaned_app A B H), split_nl_app.
  apply append_parts_join; apply split_nl_nonempty.
Qed.

(** C2 as stated fails: a control sequence cut by the chunk boundary is
    not stripped.  Appending [ESC [] and then ["A\n"] completes the line
    [ESC [ A], whereas appending [ESC [ A \n] in one call completes the
    empty line. *)
Lemma cut_control_sequence_is_kept :
  OutputBuffer.lines
    (OutputBuffer.append (OutputBuffer.append OutputBuffer.empty [ESC; LBRACKET])
                         (lit "A" ++ [LF]))
  = [ESC :: lit "[A"]
  /\ OutputBuffer.lines
       (OutputBuffer.append OutputBuffer.empty ([ESC; LBRACKET] ++ lit "A" ++ [LF]))
     = [[]]
  /\ OutputBuffer.lines
       (OutputBuffer.append (OutputBuffer.append OutputBuffer.empty [ESC; LBRACKET])
                            (lit "A" ++ [LF]))
     <> OutputBuffer.lines
          (OutputBuffer.append OutputBuffer.empty ([ESC; LBRACKET] ++ lit "A" ++ [LF])).
Proof. repeat split; try reflexivity. vm_compute. discriminate. Qed.

(** Whatever the second chunk is, a first chunk that does not end inside
    a control sequence can be appended on its own. *)
Corollary append_after_whole_sequences (b : OutputBuffer.t) (A B : str) :
  ends_in_csi_prefix A = false ->
  OutputBuffer.append (OutputBuffer.append b A) B = OutputBuffer.append b (A ++ B).
Proof.
  intro H. rewrite !append_as_parts.
  rewrite (cleaned_app A B (no_csi_prefix_no_straddle A B H)), split_nl_app.
  apply append_parts_join; apply split_nl_nonempty.
Qed.

(** The theorem at a chunk that ends in the middle of a line. *)
Lemma append_split_chunk_witness :
  OutputBuffer.append
    (OutputBuffer.append OutputBuffer.empty (lit "one" ++ [CR; LF] ++ lit "tw"))
    (lit "o" ++ [LF])
  = OutputBuffer.append OutputBuffer.empty
      ((lit "one" ++ [CR; LF] ++ lit "tw") ++ lit "o" ++ [LF]).
Proof.
  apply (append_split_chunk OutputBuffer.empty
           (lit "one" ++ [CR; LF] ++ lit "tw") (lit "o" ++ [LF])).
  reflexivity.
Defined.

(** ** Hook state reader *)

Lemma readHookState_unchanged (fs : FileSystem) (path : str) (p : Z) :
  statSync fs path = Normal p ->
  readHookState fs path (Some p)
  = ({| state := unknown; mtime := Some p |}, [CallStat path]).
Proof.
  intro H. unfold readHookState, readHookState_try, bind, do_stat, ret.
  rewrite H. simpl. rewrite Z.eqb_refl. reflexivity.
Qed.


(** A poll that gets past the modification-time test reads the file, and
    its answer is decided by the content. *)
Lemma readHookState_read (fs : FileSystem) (path : str) (prev : option Z) (m : Z) (raw : str) :
  statSync fs path = Normal m ->
  same_mtime prev m = false ->
  readFileSync fs path = Normal raw ->
  readHookState fs path prev
  = (match JSON_parse raw with
     | Normal v =>
         match get_state v with
         | Normal st =>
             match recognized_state st with
             | Some s => {| state := s; mtime := Some m |}
             | None => {| state := unknown; mtime := None |}
             end
         | Throw e => if not_ENOENT e then {| state := unknown; mtime := prev |}
                      else {| state := unknown; mtime := None |}
         | Exit _ => {| state := unknown; mtime := None |}
         end
     | Throw e => if not_ENOENT e then {| state := unknown; mtime := prev |}
                  else {| state := unknown; mtime := None |}
     | Exit _ => {| state := unknown; mtime := None |}
     end, [CallStat path; CallRead path]).
Proof.
  intros Hs Hm Hr.
  unfold readHookState, readHookState_try, bind, do_stat, do_read, pure, ret.
  rewrite Hs, Hm, Hr.
  destruct (JSON_parse raw) as [v|e|n]; simpl; try reflexivity.
  - destruct (get_state v) as [st|e|n]; simpl; try reflexivity.
    + destruct (recognized_state st); reflexivity.
    + destruct (not_ENOENT e); reflexivity.
  - destruct (not_ENOENT e); reflexivity.
Qed.

(** [JSON.parse] throws nothing but a [SyntaxError], and [parsed.state]
    nothing but a [TypeError]. *)
Lemma JSON_parse_throws (raw : str) (e : Exn) :
  JSON_parse raw = Throw e -> e = SyntaxError.
Proof.
  unfold JSON_parse. destruct (json_value _ raw) as [[v rest]|]; [|congruence].
  destruct (skip_json_ws rest); congruence.
Qed.

Lemma JSON_parse_no_exit (raw : str) (n : Z) : JSON_parse raw <> Exit n.
Proof.
  unfold JSON_parse. destruct (json_value _ raw) as [[v rest]|]; [|congruence].
  destruct (skip_json_ws rest); congruence.
Qed.

Lemma get_state_throws (v : JSON) (e : Exn) :
  get_state v = Throw e -> e = TypeError /\ v = JNull.
Proof. destruct v; simpl; intro H; try discriminate. injection H as <-. auto. Qed.

Lemma get_state_no_exit (v : JSON) (n : Z) : get_state v <> Exit n.
Proof. destruct v; discriminate. Qed.

(** What a poll answers on bad content. *)
Lemma readHookState_bad_content (fs : FileSystem) (path : str) (prev : option Z)
      (m : Z) (raw : str) :
  statSync fs path = Normal m ->
  same_mtime prev m = false ->
  readFileSync fs path = Normal raw ->
  bad_content raw ->
  readHookState fs path prev
  = ({| state := unknown;
        mtime := if parses_to_readable raw then None else prev |},
     [CallStat path; CallRead path]).
Proof.
  intros Hs Hm Hr Hbad.
  rewrite (readHookState_read fs path prev m raw Hs Hm Hr).
  unfold bad_content, parses_to_readable in *.
  destruct (JSON_parse raw) as [v|e|n] eqn:Ep.
  - destruct (get_state v) as [st|e|n] eqn:Eg.
    + rewrite Hbad. reflexivity.
    + apply get_state_throws in Eg as [-> _]. reflexivity.
    + now apply get_state_no_exit in Eg.
  - apply JSON_parse_throws in Ep as ->. reflexivity.
  - now apply JSON_parse_no_exit in Ep.
Qed.

Lemma same_mtime_false_neq (prev : option Z) (m : Z) :
  same_mtime prev m = false <-> prev <> Some m.
Proof.
  unfold same_mtime. destruct prev as [p|]; split; intro H; try congruence.
  - apply Z.eqb_neq in H. congruence.
  - apply Z.eqb_neq. congruence.
Qed.

Lemma refreshHookState_log (fs : FileSystem) (path : str) (v : HookVars) :
  snd (refreshHookState fs path v) = snd (readHookState fs path (var_hookMtime v)).
Proof.
  unfold refreshHookState.
  destruct (readHookState fs path (var_hookMtime v)) as [r log].
  destruct (mtime r) as [m|]; [|reflexivity].
  destruct (negb (option_Z_eqb (Some m) (var_hookMtime v))); reflexivity.
Qed.

(** The stored modification time after a refresh is the one that was
    stored before or the one the poll answered. *)
Lemma refreshHookState_mtime (fs : FileSystem) (path : str) (v : HookVars) :
  var_hookMtime (fst (refreshHookState fs path v))
  = mtime (fst (readHookState fs path (var_hookMtime v))).
Proof.
  unfold refreshHookState.
  destruct (readHookState fs path (var_hookMtime v)) as [r log].
  cbn [fst]. destruct (mtime r) as [m|] eqn:E; [|reflexivity].
  destruct (option_Z_eqb (Some m) (var_hookMtime v)) eqn:E'; cbn [negb fst]; [|reflexivity].
  unfold option_Z_eqb in E'. destruct (var_hookMtime v) as [q|]; [|discriminate].
  apply Z.eqb_eq in E'. now subst.
Qed.

(** C4, as the program has it.  When a poll reads a file whose content
    fails to parse, or parses without a recognized state value, it
    answers state unknown and does not advance the timestamp to the
    file's modification time: the answered timestamp is absent when the
    content parses to a value whose [state] can be read, and is the
    previous timestamp when parsing throws or the value is [null].  The
    timestamp [refreshHookState] stores is then not the file's either,
    and the next poll reads the same content again. *)
Theorem bad_content_keeps_old_timestamp :
  forall (fs : FileSystem) (path : str) (hs : HookState) (prev : option Z)
         (m : Z) (raw : str),
    statSync fs path = Normal m ->
    same_mtime prev m = false ->
    readFileSync fs path = Normal raw ->
    bad_content raw ->
    let r := fst (readHookState fs path prev) in
    let v1 := fst (refreshHookState fs path {| var_hookState := hs; var_hookMtime := prev |}) in
    state r = unknown
    /\ mtime r = (if parses_to_readable raw then None else prev)
    /\ mtime r <> Some m
    /\ snd (readHookState fs path prev) = [CallStat path; CallRead path]
    /\ var_hookMtime v1 <> Some m
    /\ snd (refreshHookState fs path v1) = [CallStat path; CallRead path].
Proof.
  intros fs path hs prev m raw Hs Hm Hr Hbad r v1.
  pose proof (readHookState_bad_content fs path prev m raw Hs Hm Hr Hbad) as E.
  assert (Hneq : (if parses_to_readable raw then None else prev) <> Some m).
  { destruct (parses_to_readable raw); [discriminate|].
    now apply same_mtime_false_neq. }
  assert (Hv1 : var_hookMtime v1 = if parses_to_readable raw then None else prev).
  { subst v1. rewrite refreshHookState_mtime. simpl. rewrite E. reflexivity. }
  subst r. rewrite E. simpl.
  repeat split; try assumption; try reflexivity.
  - rewrite Hv1. exact Hneq.
  - rewrite refreshHookState_log, Hv1.
    rewrite (readHookState_bad_content fs path _ m raw Hs); try assumption.
    + reflexivity.
    + apply same_mtime_false_neq. exact Hneq.
Qed.

(** The theorem at a state file that holds the text [not json]. *)
Lemma bad_content_keeps_old_timestamp_witness :
  mtime (fst (readHookState (single_file example_state_file 5 (lit "not json"))
                            example_state_file (Some 3%Z)))
  = Some 3%Z.
Proof.
  refine (proj1 (proj2 (bad_content_keeps_old_timestamp
            (single_file example_state_file 5 (lit "not json"))
            example_state_file busy (Some 3%Z) 5 (lit "not json") _ _ _ _))).
  - reflexivity.
  - reflexivity.
  - reflexivity.
  - exact I.
Defined.

(** C4 as stated fails.  The file was modified at time 5 and the previous
    timestamp is 3.  On content that does not parse the poll answers the
    timestamp 3; on content that parses with the state [paused] it
    answers no timestamp; in neither case the timestamp 5.  Two refreshes
    in a row both read the content. *)
Lemma bad_content_timestamp_not_advanced :
  let fs := single_file example_state_file 5 (lit "not json") in
  let fs' := single_file example_state_file 5 (dq "{'state':'paused'}") in
  let v0 := {| var_hookState := busy; var_hookMtime := Some 3%Z |} in
  readHookState fs example_state_file (Some 3%Z)
  = ({| state := unknown; mtime := Some 3%Z |},
     [CallStat example_state_file; CallRead example_state_file])
  /\ readHookState fs' example_state_file (Some 3%Z)
     = ({| state := unknown; mtime := None |},
        [CallStat example_state_file; CallRead example_state_file])
  /\ mtime (fst (readHookState fs example_state_file (Some 3%Z))) <> Some 5%Z
  /\ mtime (fst (readHookState fs' example_state_file (Some 3%Z))) <> Some 5%Z
  /\ snd (refreshHookState fs example_state_file v0)
     = [CallStat example_state_file; CallRead example_state_file]
  /\ snd (refreshHookState fs example_state_file
            (fst (refreshHookState fs example_state_file v0)))
     = [CallStat example_state_file; CallRead example_state_file].
Proof. vm_compute. repeat split; discriminate. Qed.

Lemma single_file_stat (path : str) (m : Z) (content : str) :
  statSync (single_file path m content) path = Normal m.
Proof. simpl. now rewrite str_eqb_refl. Qed.

Lemma single_file_read (path : str) (m : Z) (content : str) :
  readFileSync (single_file path m content) path = Normal content.
Proof. simpl. now rewrite str_eqb_refl. Qed.



(** ** Game *)

Lemma pairs_ind (A : Type) (P : list A -> Prop) :
  P [] -> (forall a, P [a]) -> (forall a b l, P l -> P (a :: b :: l)) ->
  forall l, P l.
Proof.
  intros H0 H1 H2.
  assert (H : forall l, P l /\ forall a, P (a :: l)).
  { induction l as [|b l [IH1 IH2]]; split; auto. }
  intro l. apply H.
Qed.

Lemma placeTarget_loop_sound (g : Game.t) (rng : list Q) :
  forall g' rng',
    Game.placeTarget_loop g rng = Some (g', rng') ->
    placed g g' /\ Game.same_cell (Game.target g') (Game.player g') = false.
Proof.
  induction rng as [|a|rx ry rest IH] using pairs_ind; intros g' rng' H;
    try discriminate.
  cbn [Game.placeTarget_loop] in H.
  destruct (negb (Game.random_below rx (Game.width g) =? Game.x (Game.player g))%Z
            || negb (Game.random_below ry (Game.height g) =? Game.y (Game.player g))%Z)
    eqn:E.
  - injection H as <- <-. unfold placed, Game.same_cell. simpl.
    split; [auto|]. rewrite <- negb_andb in E. now apply negb_true_iff in E.
  - now apply IH in H.
Qed.

Lemma placeTarget_sound (g : Game.t) (rng : list Q) (g' : Game.t) (rng' : list Q) :
  Game.placeTarget g rng = Some (g', rng') ->
  placed g g'
  /\ (1 < Game.width g -> 1 < Game.height g ->
      Game.same_cell (Game.target g') (Game.player g') = false)%Z.
Proof.
  unfold Game.placeTarget.
  destruct (Z.leb_spec (Game.width g) 1) as [Hw|Hw]; simpl.
  - intro H; injection H as <- <-. unfold placed; simpl. split; [auto|lia].
  - destruct (Z.leb_spec (Game.height g) 1) as [Hh|Hh]; simpl.
    + intro H; injection H as <- <-. unfold placed; simpl. split; [auto|lia].
    + intro H. apply placeTarget_loop_sound in H as [H1 H2]. auto.
Qed.

Lemma varied_weaken (w h : Z) (k : nat) :
  forall rng, Game.varied w h (S k) rng = true -> Game.varied w h k rng = true.
Proof.
  induction k as [|k IH]; intros rng H; [reflexivity|].
  cbn [Game.varied] in *.
  destruct rng as [|rx [|ry [|rx' [|ry' rest]]]]; try discriminate.
  apply andb_true_iff in H as [H1 H2]. rewrite H1. simpl.
  apply IH. exact H2.
Qed.

(** With a varied supply the loop ends after one round or two. *)
Lemma placeTarget_loop_returns (g : Game.t) (k : nat) (rng : list Q) :
  Game.varied (Game.width g) (Game.height g) (S k) rng = true ->
  exists g' rng',
    Game.placeTarget_loop g rng = Some (g', rng')
    /\ Game.varied (Game.width g) (Game.height g) (Nat.pred k) rng' = true.
Proof.
  intro H. cbn [Game.varied] in H.
  destruct rng as [|rx [|ry [|rx' [|ry' rest]]]]; try discriminate.
  apply andb_true_iff in H as [Hd Hv].
  cbn [Game.placeTarget_loop].
  destruct (negb (Game.random_below rx (Game.width g) =? Game.x (Game.player g))%Z
            || negb (Game.random_below ry (Game.height g) =? Game.y (Game.player g))%Z)
    eqn:E1.
  - eexists; eexists; split; [reflexivity|].
    destruct k as [|k]; [reflexivity|]. now apply varied_weaken.
  - rewrite <- negb_andb in E1. apply negb_false_iff in E1.
    apply andb_true_iff in E1 as [Ex Ey].
    apply Z.eqb_eq in Ex, Ey.
    apply negb_true_iff in Hd. unfold Game.same_cell in Hd. simpl in Hd.
    rewrite Ex, Ey in Hd.
    assert (E2 : negb (Game.random_below rx' (Game.width g) =? Game.x (Game.player g))%Z
                 || negb (Game.random_below ry' (Game.height g) =? Game.y (Game.player g))%Z
                 = true).
    { rewrite <- negb_andb. apply negb_true_iff.
      rewrite (Z.eqb_sym (Game.x (Game.player g))), (Z.eqb_sym (Game.y (Game.player g))) in Hd.
      exact Hd. }
    rewrite E2.
    eexists; eexists; split; [reflexivity|].
    destruct k as [|k]; [reflexivity|].
    cbn [Game.varied] in Hv.
    destruct rest as [|rx2 [|ry2 rest2]]; try discriminate.
    apply andb_true_iff in Hv as [_ Hv]. exact Hv.
Qed.

Lemma placeTarget_returns (g : Game.t) (k : nat) (rng : list Q) :
  Game.varied (Game.width g) (Game.height g) (S k) rng = true ->
  exists g' rng',
    Game.placeTarget g rng = Some (g', rng')
    /\ Game.varied (Game.width g) (Game.height g) (Nat.pred k) rng' = true.
Proof.
  intro H. unfold Game.placeTarget.
  destruct (Z.leb (Game.width g) 1 || Z.leb (Game.height g) 1).
  - eexists; eexists; split; [reflexivity|].
    destruct k as [|k]; [reflexivity|]. simpl. now apply varied_weaken, varied_weaken.
  - now apply placeTarget_loop_returns.
Qed.

Lemma random_below_range (r : Q) (n : Z) :
  (0 <= r)%Q -> (r < 1)%Q -> (0 < n)%Z -> (0 <= Game.random_below r n < n)%Z.
Proof.
  intros H0 H1 Hn. unfold Game.random_below.
  assert (Hq : (inject_Z 0 < inject_Z n)%Q) by (rewrite <- Zlt_Qlt; exact Hn).
  change (inject_Z 0) with 0%Q in Hq.
  split.
  - change 0%Z with (Qfloor 0). apply Qfloor_resp_le.
    apply Qmult_le_0_compat; [exact H0|]. now apply Qlt_le_weak.
  - rewrite Zlt_Qlt.
    apply Qle_lt_trans with (r * inject_Z n)%Q; [apply Qfloor_le|].
    rewrite <- (Qmult_1_l (inject_Z n)) at 2.
    apply Qmult_lt_compat_r; assumption.
Qed.

(** The target is placed on the grid when the random values are in the
    unit interval. *)
Lemma placeTarget_loop_in_grid (g : Game.t) (rng : list Q) :
  unit_interval rng -> (0 < Game.width g)%Z -> (0 < Game.height g)%Z ->
  forall g' rng',
    Game.placeTarget_loop g rng = Some (g', rng') ->
    in_grid g (Game.target g') /\ unit_interval rng'.
Proof.
  intros Hu Hw Hh.
  induction rng as [|a|rx ry rest IH] using pairs_ind; intros g' rng' H;
    try discriminate.
  inversion Hu as [|? ? [Hx0 Hx1] Hu1]; subst.
  inversion Hu1 as [|? ? [Hy0 Hy1] Hu2]; subst.
  cbn [Game.placeTarget_loop] in H.
  destruct (negb (Game.random_below rx (Game.width g) =? Game.x (Game.player g))%Z
            || negb (Game.random_below ry (Game.height g) =? Game.y (Game.player g))%Z).
  - injection H as <- <-. split; [|exact Hu2]. unfold in_grid. simpl.
    split; apply random_below_range; assumption.
  - now apply IH.
Qed.

Lemma placeTarget_in_grid (g : Game.t) (rng : list Q) (g' : Game.t) (rng' : list Q) :
  unit_interval rng -> (1 < Game.width g)%Z -> (1 < Game.height g)%Z ->
  Game.placeTarget g rng = Some (g', rng') ->
  in_grid g' (Game.target g').
Proof.
  intros Hu Hw Hh H.
  destruct (placeTarget_sound g rng g' rng' H) as [(Hw' & Hh' & _) _].
  unfold Game.placeTarget in H.
  replace (Z.leb (Game.width g) 1) with false in H by (symmetry; apply Z.leb_gt; lia).
  replace (Z.leb (Game.height g) 1) with false in H by (symmetry; apply Z.leb_gt; lia).
  cbn [orb] in H.
  apply placeTarget_loop_in_grid in H as [Hg _]; [|exact Hu|lia|lia].
  unfold in_grid in *. rewrite Hw', Hh'. exact Hg.
Qed.

Lemma move_unfold (g : Game.t) (dx dy : Z) (rng : list Q) :
  Game.move g dx dy rng =
    if captures g dx dy then
      Game.placeTarget
        {| Game.width := Game.width g; Game.height := Game.height g;
           Game.player := moved_player g dx dy;
           Game.target := Game.target g; Game.score := Game.score g + 1 |} rng
    else
      Some ({| Game.width := Game.width g; Game.height := Game.height g;
               Game.player := moved_player g dx dy;
               Game.target := Game.target g; Game.score := Game.score g |}, rng).
Proof. reflexivity. Qed.

Lemma move_sound (g : Game.t) (dx dy : Z) (rng : list Q) (g' : Game.t) (rng' : list Q) :
  Game.move g dx dy rng = Some (g', rng') ->
  Game.width g' = Game.width g /\ Game.height g' = Game.height g
  /\ Game.player g' = moved_player g dx dy
  /\ Game.score g' = (if captures g dx dy then Game.score g + 1 else Game.score g)%Z
  /\ (captures g dx dy = false -> Game.target g' = Game.target g /\ rng' = rng)
  /\ (1 < Game.width g -> 1 < Game.height g ->
      Game.same_cell (Game.target g') (Game.player g') = false)%Z.
Proof.
  rewrite move_unfold. destruct (captures g dx dy) eqn:E.
  - intro H. apply placeTarget_sound in H as [(Hw & Hh & Hp & Hs) Ht]. simpl in *.
    repeat split; auto; discriminate.
  - intro H; injection H as <- <-. simpl. repeat split; auto.
    intros _ _. unfold captures in E. unfold Game.same_cell in *.
    rewrite (Z.eqb_sym (Game.x (Game.target g))), (Z.eqb_sym (Game.y (Game.target g))).
    exact E.
Qed.

Lemma reset_sound (g : Game.t) (rng : list Q) (g' : Game.t) (rng' : list Q) :
  Game.reset g rng = Some (g', rng') ->
  Game.width g' = Game.width g /\ Game.height g' = Game.height g
  /\ Game.player g' = {| Game.x := Game.width g / 2; Game.y := Game.height g / 2 |}
  /\ Game.score g' = 0%Z
  /\ (1 < Game.width g -> 1 < Game.height g ->
      Game.same_cell (Game.target g') (Game.player g') = false)%Z.
Proof.
  unfold Game.reset. intro H.
  apply placeTarget_sound in H as [(Hw & Hh & Hp & Hs) Ht]. simpl in *. auto.
Qed.

Lemma resize_sound (g : Game.t) (w h : Z) (rng : list Q) (g' : Game.t) (rng' : list Q) :
  Game.resize g w h rng = Some (g', rng') ->
  Game.width g' = Z.max 5 w /\ Game.height g' = Z.max 5 h
  /\ Game.player g' = {| Game.x := Z.min (Game.x (Game.player g)) (Z.max 5 w - 1);
                         Game.y := Z.min (Game.y (Game.player g)) (Z.max 5 h - 1) |}
  /\ Game.score g' = Game.score g
  /\ Game.same_cell (Game.target g') (Game.player g') = false.
Proof.
  unfold Game.resize. intro H.
  apply placeTarget_sound in H as [(Hw & Hh & Hp & Hs) Ht]. simpl in *.
  repeat split; auto. apply Ht; lia.
Qed.

Ltac place_with H :=
  match goal with
  | |- exists g' rng', Game.placeTarget ?g0 ?rng = _ /\ _ =>
      exact (placeTarget_returns g0 _ rng H)
  end.

(** Every operation returns when the supply is varied for the grid it
    places the target on. *)
Lemma apply_returns (o : Game.op) (g : Game.t) (k : nat) (rng : list Q) :
  Game.varied (width_after o g) (height_after o g) (S (S k)) rng = true ->
  exists g' rng',
    Game.apply o g rng = Some (g', rng')
    /\ Game.varied (width_after o g) (height_after o g) k rng' = true.
Proof.
  intro H. destruct o as [dx dy|w h|];
    cbn [width_after height_after Game.apply] in *.
  - rewrite move_unfold. destruct (captures g dx dy).
    + place_with H.
    + eexists; eexists; split; [reflexivity|]. now apply varied_weaken, varied_weaken.
  - unfold Game.resize. place_with H.
  - unfold Game.reset. place_with H.
Qed.

(** A sequence of [n] moves returns on a supply varied for [2 n] rounds. *)
Lemma moves_return (steps : list (Z * Z)) :
  forall (g : Game.t) (rng : list Q),
    Game.varied (Game.width g) (Game.height g) (2 * length steps) rng = true ->
    exists g' rng', Game.run (moves steps) g rng = Some (g', rng').
Proof.
  induction steps as [|[dx dy] steps IH]; intros g rng H.
  - eexists; eexists; reflexivity.
  - cbn [moves map Game.run fst snd].
    replace (2 * length ((dx, dy) :: steps))%nat with (S (S (2 * length steps)))
      in H by (simpl; lia).
    destruct (apply_returns (Game.Move dx dy) g _ rng H) as (g1 & rng1 & E & Hv).
    rewrite E. cbn [width_after height_after] in Hv. cbn [Game.apply] in E.
    destruct (move_sound g dx dy rng g1 rng1 E) as (Hw & Hh & _).
    apply IH. now rewrite Hw, Hh.
Qed.

(** Moving right from a column inside the grid. *)
Lemma moves_right_from_inside (n : nat) :
  forall (g : Game.t) (rng : list Q) (g' : Game.t) (rng' : list Q),
    (0 <= Game.x (Game.player g) <= Game.width g - 1)%Z ->
    Game.run (moves (repeat (1, 0)%Z n)) g rng = Some (g', rng') ->
    Game.width g' = Game.width g
    /\ (Z.min (Game.width g - 1) (Game.x (Game.player g) + Z.of_nat n)
        <= Game.x (Game.player g') <= Game.width g - 1)%Z.
Proof.
  induction n as [|n IH]; intros g rng g' rng' Hx H.
  - injection H as <- <-. split; [reflexivity|lia].
  - cbn [repeat moves map Game.run fst snd] in H.
    destruct (Game.apply (Game.Move 1 0) g rng) as [[g1 rng1]|] eqn:E; [|discriminate].
    simpl in E.
    destruct (move_sound g 1 0 rng g1 rng1 E) as (Hw & _ & Hp & _).
    assert (Hx1 : Game.x (Game.player g1) = clamp (Game.width g) (Game.x (Game.player g) + 1))
      by (rewrite Hp; reflexivity).
    unfold clamp in Hx1.
    destruct (IH g1 rng1 g' rng') as [Hw' Hb]; [rewrite Hw; lia|exact H|].
    rewrite Hw in *. split; [exact Hw'|]. lia.
Qed.

Lemma clamp_range (limit v : Z) : (1 <= limit -> 0 <= clamp limit v <= limit - 1)%Z.
Proof. unfold clamp. lia. Qed.

Lemma moves_right_reach_edge (g : Game.t) (rng : list Q) (g' : Game.t) (rng' : list Q) :
  (1 <= Game.width g)%Z ->
  Game.run (moves (repeat (1, 0)%Z (Z.to_nat (Game.width g)))) g rng = Some (g', rng') ->
  Game.x (Game.player g') = (Game.width g - 1)%Z.
Proof.
  intros Hw H.
  destruct (Z.to_nat (Game.width g)) as [|n] eqn:En; [lia|].
  cbn [repeat moves map Game.run fst snd] in H.
  destruct (Game.apply (Game.Move 1 0) g rng) as [[g1 rng1]|] eqn:E; [|discriminate].
  cbn [Game.apply] in E.
  destruct (move_sound g 1 0 rng g1 rng1 E) as (Hw1 & _ & Hp & _).
  assert (Hx1 : Game.x (Game.player g1) = clamp (Game.width g) (Game.x (Game.player g) + 1))
    by (rewrite Hp; reflexivity).
  pose proof (clamp_range (Game.width g) (Game.x (Game.player g) + 1) Hw) as Hr.
  destruct (moves_right_from_inside n g1 rng1 g' rng') as [_ Hb];
    [rewrite Hw1; lia|exact H|].
  rewrite Hw1 in Hb. lia.
Qed.

(** C8.  On a grid at least 5 wide and 5 high, a move puts the player at
    the commanded offset, clamped to the grid: for the four steps the
    keys command and a player on the grid, one cell further, or the same
    cell at the edge.  If the cell reached is the target's, the score
    grows by exactly 1 and the target goes to a cell that is not the
    player's (a cell of the grid when the random values are in the unit
    interval); if not, the score and the target stay.  After a move, a
    reset and a resize the target is never in the player's cell.  Moving
    right as many times as the grid is wide leaves the player in the last
    column.  The operations return whenever the random supply is
    varied. *)
Theorem game_moves_clamp_and_capture :
  forall (g : Game.t) (rng : list Q),
    (5 <= Game.width g)%Z -> (5 <= Game.height g)%Z ->
    (forall dx dy g' rng',
        Game.move g dx dy rng = Some (g', rng') ->
        Game.player g' = moved_player g dx dy
        /\ Game.score g'
           = (if captures g dx dy then Game.score g + 1 else Game.score g)%Z
        /\ (captures g dx dy = false -> Game.target g' = Game.target g)
        /\ Game.same_cell (Game.target g') (Game.player g') = false)
    /\ (forall dx dy g' rng',
           In (dx, dy) unit_steps -> in_grid g (Game.player g) ->
           Game.move g dx dy rng = Some (g', rng') ->
           Game.x (Game.player g')
           = step_within (Game.width g) (Game.x (Game.player g)) dx
           /\ Game.y (Game.player g')
              = step_within (Game.height g) (Game.y (Game.player g)) dy)
    /\ (forall dx dy g' rng',
           unit_interval rng -> captures g dx dy = true ->
           Game.move g dx dy rng = Some (g', rng') ->
           in_grid g' (Game.target g'))
    /\ (forall dx dy,
           Game.varied (Game.width g) (Game.height g) 2 rng = true ->
           Game.move g dx dy rng <> None)
    /\ (forall g' rng',
           Game.run (moves (repeat (1, 0)%Z (Z.to_nat (Game.width g)))) g rng
           = Some (g', rng') ->
           Game.x (Game.player g') = (Game.width g - 1)%Z)
    /\ (Game.varied (Game.width g) (Game.height g)
          (2 * Z.to_nat (Game.width g)) rng = true ->
        Game.run (moves (repeat (1, 0)%Z (Z.to_nat (Game.width g)))) g rng <> None)
    /\ (forall g' rng',
           Game.reset g rng = Some (g', rng') ->
           Game.same_cell (Game.target g') (Game.player g') = false)
    /\ (forall w h g' rng',
           Game.resize g w h rng = Some (g', rng') ->
           (5 <= Game.width g')%Z /\ (5 <= Game.height g')%Z
           /\ Game.same_cell (Game.target g') (Game.player g') = false)
    /\ (Game.varied (Game.width g) (Game.height g) 2 rng = true ->
        Game.reset g rng <> None)
    /\ (forall w h,
           Game.varied (Z.max 5 w) (Z.max 5 h) 2 rng = true ->
           Game.resize g w h rng <> None).
Proof.
  intros g rng Hw Hh.
  split; [|split; [|split; [|split; [|split; [|split; [|split; [|split; [|split]]]]]]]].
  - intros dx dy g' rng' H.
    destruct (move_sound g dx dy rng g' rng' H) as (_ & _ & Hp & Hs & Ht & Hc).
    repeat split; auto.
    + intro E. now apply Ht.
    + apply Hc; lia.
  - intros dx dy g' rng' Hd [Hx Hy] H.
    destruct (move_sound g dx dy rng g' rng' H) as (_ & _ & Hp & _).
    rewrite Hp. unfold moved_player, clamp, step_within. cbn [Game.x Game.y].
    unfold unit_steps in Hd. cbn [In] in Hd.
    destruct Hd as [E|[E|[E|[E|[]]]]]; injection E as <- <-;
      split;
      match goal with
      | |- _ = (if ?c then _ else _) => destruct c eqn:Ec
      end; lia.
  - intros dx dy g' rng' Hu Hc H.
    rewrite move_unfold, Hc in H.
    apply (placeTarget_in_grid _ rng g' rng' Hu) in H; [exact H|simpl; lia|simpl; lia].
  - intros dx dy Hv.
    destruct (apply_returns (Game.Move dx dy) g 0 rng Hv) as (g' & rng' & E & _).
    cbn [Game.apply] in E. congruence.
  - intros g' rng' H. apply (moves_right_reach_edge g rng g' rng'); [lia|exact H].
  - intro Hv.
    destruct (moves_return (repeat (1, 0)%Z (Z.to_nat (Game.width g))) g rng)
      as (g' & rng' & E).
    + now rewrite repeat_length.
    + congruence.
  - intros g' rng' H.
    destruct (reset_sound g rng g' rng' H) as (_ & _ & _ & _ & Hc). apply Hc; lia.
  - intros w h g' rng' H.
    destruct (resize_sound g w h rng g' rng' H) as (Hw' & Hh' & _ & _ & Hc).
    repeat split; [lia|lia|exact Hc].
  - intro Hv.
    destruct (apply_returns Game.Reset g 0 rng Hv) as (g' & rng' & E & _).
    cbn [Game.apply] in E. congruence.
  - intros w h Hv.
    destruct (apply_returns (Game.Resize w h) g 0 rng Hv) as (g' & rng' & E & _).
    cbn [Game.apply] in E. congruence.
Qed.

(** The theorem at the example game: ten moves to the right return. *)
Lemma game_moves_clamp_and_capture_witness :
  Game.run (moves (repeat (1, 0)%Z (Z.to_nat (Game.width example_game))))
           example_game example_rng <> None.
Proof.
  refine (proj1 (proj2 (proj2 (proj2 (proj2 (proj2
            (game_moves_clamp_and_capture example_game example_rng _ _)))))) _).
  - simpl. lia.
  - simpl. lia.
  - vm_compute. reflexivity.
Defined.

Lemma apply_score (o : Game.op) (g : Game.t) (rng : list Q) (g' : Game.t) (rng' : list Q) :
  Game.apply o g rng = Some (g', rng') ->
  Game.score g' =
    match o with
    | Game.Move dx dy => if captures g dx dy then Game.score g + 1 else Game.score g
    | Game.Resize _ _ => Game.score g
    | Game.Reset => 0
    end%Z.
Proof.
  destruct o as [dx dy|w h|]; cbn [Game.apply]; intro H.
  - now destruct (move_sound g dx dy rng g' rng' H) as (_ & _ & _ & Hs & _).
  - now destruct (resize_sound g w h rng g' rng' H) as (_ & _ & _ & Hs & _).
  - now destruct (reset_sound g rng g' rng' H) as (_ & _ & _ & Hs & _).
Qed.

Lemma run_score_monotone (ops : list Game.op) :
  forall (g : Game.t) (rng : list Q) (g' : Game.t) (rng' : list Q),
    forallb (fun o => negb (is_reset o)) ops = true ->
    Game.run ops g rng = Some (g', rng') ->
    (Game.score g <= Game.score g')%Z.
Proof.
  induction ops as [|o ops IH]; intros g rng g' rng' Hops H.
  - injection H as <- <-. lia.
  - cbn [forallb] in Hops. apply andb_true_iff in Hops as [Ho Hops].
    cbn [Game.run] in H.
    destruct (Game.apply o g rng) as [[g1 rng1]|] eqn:E; [|discriminate].
    pose proof (apply_score o g rng g1 rng1 E) as Hs.
    pose proof (IH g1 rng1 g' rng' Hops H) as Hle.
    destruct o as [dx dy|w h|]; [| |discriminate].
    + destruct (captures g dx dy); lia.
    + lia.
Qed.

(** C9, as the program has it.  A move leaves the score as it is or adds
    1 to it, a resize leaves it as it is, and a reset sets it to 0.  So
    the score never decreases along a sequence of moves and resizes; a
    reset restarts it.  Each operation returns whenever the random supply
    is varied. *)
Theorem score_grows_until_reset :
  forall (g : Game.t) (rng : list Q),
    (forall o g' rng',
        Game.apply o g rng = Some (g', rng') ->
        Game.score g' =
          match o with
          | Game.Move dx dy => if captures g dx dy then Game.score g + 1 else Game.score g
          | Game.Resize _ _ => Game.score g
          | Game.Reset => 0
          end%Z
        /\ (is_reset o = false -> Game.score g <= Game.score g')%Z)
    /\ (forall ops g' rng',
           forallb (fun o => negb (is_reset o)) ops = true ->
           Game.run ops g rng = Some (g', rng') ->
           (Game.score g <= Game.score g')%Z)
    /\ (forall o,
           Game.varied (width_after o g) (height_after o g) 2 rng = true ->
           Game.apply o g rng <> None).
Proof.
  intros g rng. split; [|split].
  - intros o g' rng' H. pose proof (apply_score o g rng g' rng' H) as Hs.
    split; [exact Hs|]. intro Hr.
    destruct o as [dx dy|w h|]; [| |discriminate].
    + destruct (captures g dx dy); lia.
    + lia.
  - intros ops g' rng'. apply run_score_monotone.
  - intros o Hv.
    destruct (apply_returns o g 0 rng Hv) as (g' & rng' & E & _). congruence.
Qed.

(** The theorem at the example game: a capture, then a resize. *)
Lemma score_grows_until_reset_witness :
  (Game.score example_game <= 1)%Z.
Proof.
  refine (proj1 (proj2 (score_grows_until_reset example_game example_rng))
            [Game.Move 1 0; Game.Resize 20 8]
            {| Game.width := 20; Game.height := 8;
               Game.player := {| Game.x := 6; Game.y := 3 |};
               Game.target := {| Game.x := 10; Game.y := 4 |};
               Game.score := 1 |}
            (skipn 6 example_rng) _ _).
  - reflexivity.
  - vm_compute. reflexivity.
Defined.

(** C9 as stated fails: [reset] sets the score back to 0.  From the new
    game, a reset and a move that captures the target give the score 1;
    one more reset gives the score 0. *)
Lemma reset_lowers_the_score :
  score_of (Game.run [Game.Reset; Game.Move 1 0] Game.initial example_rng) = Some 1%Z
  /\ score_of (Game.run [Game.Reset; Game.Move 1 0; Game.Reset] Game.initial example_rng)
     = Some 0%Z
  /\ ~ (1 <= 0)%Z.
Proof. split; [reflexivity|split; [reflexivity|lia]]. Qed.

(** ** Command line *)

Section ParseArgsFacts.

Variable env_COPILOT_HOOKS_STATE : option str.
Variable home_state_file : str.
Variable new_RegExp : str -> option RegExp.

Lemma value_flag_cases (arg : str) :
  value_flag arg = true ->
  arg = lit "--copilot" \/ arg = lit "--state-file" \/ arg = lit "--prompt-regex".
Proof.
  unfold value_flag. intro H.
  apply orb_true_iff in H as [H|H]; [apply orb_true_iff in H as [H|H]|];
    apply str_eqb_eq in H; auto.
Qed.

(** A flag without a value does nothing in its round. *)
Lemma round_dangling (f : str) (next : option str) (acc : Args) :
  value_flag f = true -> truthy next = false ->
  parseArgs_round new_RegExp f next acc = TakeOne acc.
Proof.
  intros Hf Hn. unfold parseArgs_round. rewrite Hn.
  destruct (value_flag_cases f Hf) as [-> | [-> | ->]]; reflexivity.
Qed.

(** A token that is no flag with a value ignores what follows it. *)
Lemma round_other (arg : str) (next : option str) (acc : Args) :
  value_flag arg = false ->
  parseArgs_round new_RegExp arg next acc
  = if str_eqb arg (lit "--help") then Stop (Exit 0) else TakeOne acc.
Proof.
  unfold value_flag, parseArgs_round. intro H.
  apply orb_false_iff in H as [H H3]. apply orb_false_iff in H as [H1 H2].
  rewrite H1, H2, H3. reflexivity.
Qed.


Lemma round_TakeTwo (arg : str) (next : option str) (acc acc' : Args) :
  parseArgs_round new_RegExp arg next acc = TakeTwo acc' ->
  value_flag arg = true /\ truthy next = true.
Proof.
  destruct (value_flag arg) eqn:Hf.
  - destruct (truthy next) eqn:Hn; [auto|].
    rewrite (round_dangling arg next acc Hf Hn). discriminate.
  - rewrite (round_other arg next acc Hf).
    destruct (str_eqb arg (lit "--help")); discriminate.
Qed.





Lemma split_at_separator_app (pre l : list str) :
  no_separator pre = true ->
  split_at_separator (pre ++ l)
  = (pre ++ fst (split_at_separator l), snd (split_at_separator l)).
Proof.
  induction pre as [|a pre IH]; intro H.
  - simpl. now destruct (split_at_separator l).
  - cbn [no_separator forallb] in H. apply andb_true_iff in H as [Ha Hp].
    apply negb_true_iff in Ha.
    cbn [app split_at_separator]. rewrite Ha, (IH Hp). reflexivity.
Qed.



End ParseArgsFacts.




(* ===================================================================== *)
(** * Part III: further properties of the program *)
(* ===================================================================== *)

(** ** The output buffer as a view of the stream *)

Lemma cleaned_stream_snoc (chunks : list str) (text : str) :
  cleaned_stream (chunks ++ [text]) = cleaned_stream chunks ++ OutputBuffer.cleaned text.
Proof.
  unfold cleaned_stream. rewrite map_app, concat_app. simpl. now rewrite app_nil_r.
Qed.

Lemma feed_as_parts (chunks : list str) :
  OutputBuffer.feed OutputBuffer.empty chunks
  = append_parts OutputBuffer.empty (split_nl (cleaned_stream chunks)).
Proof.
  induction chunks as [|text chunks IH] using rev_ind; [reflexivity|].
  rewrite feed_snoc, IH, append_as_parts, cleaned_stream_snoc, split_nl_app.
  apply append_parts_join; apply split_nl_nonempty.
Qed.

Lemma feed_view (chunks : list str) :
  OutputBuffer.lines (OutputBuffer.feed OutputBuffer.empty chunks)
  = slice_last 2000 (removelast (split_nl (cleaned_stream chunks)))
  /\ OutputBuffer.partial (OutputBuffer.feed OutputBuffer.empty chunks)
     = last (split_nl (cleaned_stream chunks)) [].
Proof.
  rewrite feed_as_parts.
  pose proof (split_nl_nonempty (cleaned_stream chunks)) as Hne.
  destruct (split_nl (cleaned_stream chunks)) as [|first [|second more]];
    [contradiction| |]; split; reflexivity.
Qed.

(** X1.  After any sequence of [append] calls on a new buffer, the
    completed lines are the last 2000 of the segments that the newlines
    cut the whole cleaned text into, the last segment left out, and the
    partial line is that last segment: how the text was cut into chunks
    plays no part. *)
Theorem buffer_is_view_of_stream :
  forall chunks : list str,
    let segments := split_nl (cleaned_stream chunks) in
    let b := OutputBuffer.feed OutputBuffer.empty chunks in
    OutputBuffer.lines b = slice_last 2000 (removelast segments)
    /\ OutputBuffer.partial b = last segments [].
Proof.
  intros chunks segments b. subst b. rewrite feed_as_parts. fold segments.
  pose proof (split_nl_nonempty (cleaned_stream chunks)) as Hne. fold segments in Hne.
  destruct segments as [|first [|second more]]; [contradiction| |].
  - split; reflexivity.
  - split; reflexivity.
Qed.

Lemma split_nl_segments (s seg : str) :
  In seg (split_nl s) -> ~ In LF seg /\ incl seg s.
Proof.
  revert seg. induction s as [|c r IH]; intros seg H.
  - simpl in H. destruct H as [<-|[]]. split; [intros []|apply incl_refl].
  - cbn [split_nl] in H. destruct (N.eqb_spec c LF) as [E|E].
    + destruct H as [<-|H]; [split; [intros []|intros x []]|].
      destruct (IH seg H) as [H1 H2]. split; [exact H1|now apply incl_tl].
    + pose proof (split_nl_nonempty r) as Hne.
      destruct (split_nl r) as [|seg0 segs]; [contradiction|].
      destruct H as [<-|H].
      * destruct (IH seg0 (or_introl eq_refl)) as [H1 H2]. split.
        -- intros [H|H]; [congruence|contradiction].
        -- intros x [<-|Hx]; [now left|right; now apply H2].
      * destruct (IH seg (or_intror H)) as [H1 H2]. split; [exact H1|now apply incl_tl].
Qed.

Lemma cleaned_no_CR (text : str) : ~ In CR (OutputBuffer.cleaned text).
Proof.
  unfold OutputBuffer.cleaned, strip_cr. intro H.
  apply filter_In in H as [_ H]. now rewrite N.eqb_refl in H.
Qed.

Lemma cleaned_stream_no_CR (chunks : list str) : ~ In CR (cleaned_stream chunks).
Proof.
  unfold cleaned_stream. intro H. apply in_concat in H as (l & Hl & Hc).
  apply in_map_iff in Hl as (text & <- & _). now apply cleaned_no_CR in Hc.
Qed.

Lemma In_removelast (A : Type) (x : A) (l : list A) : In x (removelast l) -> In x l.
Proof.
  induction l as [|a [|b l] IH]; simpl; [tauto|tauto|].
  intros [H|H]; [now left|right; now apply IH].
Qed.

Lemma In_slice_last (A : Type) (n : nat) (x : A) (l : list A) :
  In x (slice_last n l) -> In x l.
Proof.
  unfold slice_last. intro H. rewrite <- (firstn_skipn (length l - n) l).
  apply in_or_app. now right.
Qed.

Lemma In_last (A : Type) (d : A) (l : list A) : l <> [] -> In (last l d) l.
Proof.
  induction l as [|a [|b l] IH]; intro H; [contradiction|now left|].
  right. apply IH. discriminate.
Qed.

Lemma In_snapshot (b : OutputBuffer.t) (l : str) :
  In l (OutputBuffer.snapshot b) ->
  In l (OutputBuffer.lines b) \/ l = OutputBuffer.partial b.
Proof.
  unfold OutputBuffer.snapshot. destruct (OutputBuffer.partial b); [auto|].
  intro H. apply in_app_or in H as [H|[<-|[]]]; auto.
Qed.

(** X2.  Whatever chunks were appended to a new buffer, no line of the
    snapshot holds a newline or a carriage return, and every character of
    a line comes from the cleaned text. *)
Theorem snapshot_lines_hold_no_line_break :
  forall (chunks : list str) (l : str),
    In l (OutputBuffer.snapshot (OutputBuffer.feed OutputBuffer.empty chunks)) ->
    ~ In LF l /\ ~ In CR l /\ incl l (cleaned_stream chunks).
Proof.
  intros chunks l H.
  destruct (feed_view chunks) as [Hl Hp].
  pose proof (split_nl_nonempty (cleaned_stream chunks)) as Hne.
  assert (Hin : In l (split_nl (cleaned_stream chunks))).
  { apply In_snapshot in H as [H| ->].
    - rewrite Hl in H. now apply In_slice_last, In_removelast in H.
    - rewrite Hp. now apply In_last. }
  destruct (split_nl_segments _ _ Hin) as [H1 H2].
  split; [exact H1|]. split; [|exact H2].
  intro Hc. apply H2 in Hc. now apply cleaned_stream_no_CR in Hc.
Qed.

(** The theorem at a chunk with a carriage return and a newline. *)
Lemma snapshot_lines_hold_no_line_break_witness :
  ~ In LF (lit "ab").
Proof.
  refine (proj1 (snapshot_lines_hold_no_line_break
                   [lit "ab" ++ [CR; LF] ++ lit "c"] (lit "ab") _)).
  vm_compute. now left.
Defined.

(** *** What stripping removes *)

Lemma match_ANSI_RE_needs_ESC (c : char) (r : str) :
  c <> ESC -> match_ANSI_RE (c :: r) = None.
Proof.
  intro H. unfold match_ANSI_RE. destruct r as [|c2 r]; [reflexivity|].
  apply N.eqb_neq in H. now rewrite H.
Qed.

Lemma strip_ansi_plain_prefix (pre rest : str) :
  ~ In ESC pre -> strip_ansi (pre ++ rest) = pre ++ strip_ansi rest.
Proof.
  induction pre as [|c pre IH]; intro H; [reflexivity|].
  change ((c :: pre) ++ rest) with (c :: pre ++ rest). rewrite strip_ansi_cons.
  rewrite match_ANSI_RE_needs_ESC by (intro E; apply H; now left).
  simpl. f_equal. apply IH. intro E. apply H. now right.
Qed.

Lemma skip_params_all (params rest : str) (final : char) :
  forallb is_param params = true -> is_alpha final = true ->
  skip_params (params ++ final :: rest) = final :: rest.
Proof.
  intros Hp Hf. induction params as [|p params IH]; simpl.
  - destruct (is_param final) eqn:E; [|reflexivity].
    exfalso. clear - Hf E. unfold is_param, is_alpha in *.
    repeat match goal with
           | H : _ && _ = true |- _ => apply andb_true_iff in H as [? ?]
           | H : _ || _ = true |- _ => apply orb_true_iff in H as [?|?]
           | H : (_ <=? _)%N = true |- _ => apply N.leb_le in H
           | H : (_ =? _)%N = true |- _ => apply N.eqb_eq in H
           end; lia.
  - simpl in Hp. apply andb_true_iff in Hp as [Hp1 Hp2]. rewrite Hp1. now apply IH.
Qed.

(** X3.  Stripping leaves text without [ESC] as it is, and removes a
    whole control sequence ([ESC [], any parameter characters, one
    letter) that follows such text, going on with what comes after it;
    so a chunk made of plain text and whole control sequences is cleaned
    to its plain text, whatever the parameters are. *)
Theorem strip_ansi_removes_whole_sequences :
  forall (plain params rest : str) (final : char),
    ~ In ESC plain ->
    forallb is_param params = true ->
    is_alpha final = true ->
    strip_ansi plain = plain
    /\ strip_ansi (plain ++ control_sequence params final ++ rest)
       = plain ++ strip_ansi rest.
Proof.
  intros plain params rest final Hplain Hp Hf. split.
  - rewrite <- (app_nil_r plain) at 1.
    rewrite (strip_ansi_plain_prefix plain [] Hplain), strip_ansi_nil. apply app_nil_r.
  - rewrite strip_ansi_plain_prefix by exact Hplain. f_equal.
    unfold control_sequence.
    change ((ESC :: LBRACKET :: params ++ [final]) ++ rest)
      with (ESC :: LBRACKET :: (params ++ [final]) ++ rest).
    rewrite strip_ansi_cons. unfold match_ANSI_RE.
    rewrite !N.eqb_refl. cbn [andb].
    rewrite <- app_assoc. cbn [app].
    rewrite (skip_params_all params rest final Hp Hf), Hf. reflexivity.
Qed.

(** The theorem at [ok ESC[1;32m done]. *)
Lemma strip_ansi_removes_whole_sequences_witness :
  strip_ansi (lit "ok " ++ control_sequence (lit "1;32") 109 ++ lit "done")
  = lit "ok " ++ strip_ansi (lit "done").
Proof.
  refine (proj2 (strip_ansi_removes_whole_sequences
                   (lit "ok ") (lit "1;32") (lit "done") 109 _ _ _)).
  - vm_compute. intuition discriminate.
  - reflexivity.
  - reflexivity.
Defined.

(** *** The text of the log pane *)

Lemma join_nl_cons (l : str) (rest : list str) :
  rest <> [] -> join_nl (l :: rest) = l ++ LF :: join_nl rest.
Proof. destruct rest; [contradiction|reflexivity]. Qed.

(** Joining the segments with newlines gives the text back. *)
Lemma join_nl_split_nl (s : str) : join_nl (split_nl s) = s.
Proof.
  induction s as [|c r IH]; [reflexivity|].
  cbn [split_nl]. pose proof (split_nl_nonempty r) as Hne.
  destruct (N.eqb_spec c LF) as [->|E].
  - rewrite join_nl_cons by exact Hne. now rewrite IH.
  - destruct (split_nl r) as [|seg [|seg' segs]]; [contradiction| |].
    + simpl in *. now rewrite IH.
    + rewrite join_nl_cons by discriminate.
      rewrite join_nl_cons in IH by discriminate.
      rewrite <- IH. reflexivity.
Qed.

Lemma length_split_nl (s : str) :
  length (split_nl s) = S (count_occ N.eq_dec s LF).
Proof.
  induction s as [|c r IH]; [reflexivity|].
  cbn [split_nl count_occ]. pose proof (split_nl_nonempty r) as Hne.
  destruct (N.eqb_spec c LF) as [->|E].
  - destruct (N.eq_dec LF LF) as [_|N]; [|contradiction]. simpl. now rewrite IH.
  - destruct (N.eq_dec c LF) as [E'|_]; [contradiction|].
    destruct (split_nl r) as [|seg segs]; [contradiction|]. exact IH.
Qed.

Lemma split_nl_snoc_LF (s : str) : split_nl (s ++ [LF]) = split_nl s ++ [[]].
Proof.
  rewrite split_nl_app. unfold join_parts. simpl.
  rewrite app_nil_r.
  pose proof (split_nl_nonempty s) as Hne.
  rewrite (app_removelast_last [] Hne) at 3.
  rewrite <- app_assoc. reflexivity.
Qed.

Lemma split_nl_snoc_other (s : str) (c : char) :
  c <> LF ->
  split_nl (s ++ [c]) = removelast (split_nl s) ++ [last (split_nl s) [] ++ [c]].
Proof.
  intro H. rewrite split_nl_app. unfold join_parts. simpl.
  apply N.eqb_neq in H. rewrite H. reflexivity.
Qed.

Lemma chomp_snoc (s : str) (c : char) :
  chomp (s ++ [c]) = if N.eqb c LF then s else s ++ [c].
Proof.
  unfold chomp. rewrite rev_app_distr. simpl.
  destruct (N.eqb c LF); [apply rev_involutive|reflexivity].
Qed.

(** X4.  As long as the cleaned text holds at most 2000 newlines, the
    text shown in the log pane (the snapshot joined with newlines) is the
    whole cleaned text of all chunks, without its final newline when it
    ends in one: nothing is lost and nothing is added. *)
Theorem log_pane_shows_cleaned_stream :
  forall chunks : list str,
    (count_occ N.eq_dec (cleaned_stream chunks) LF <= 2000)%nat ->
    log_content (OutputBuffer.feed OutputBuffer.empty chunks)
    = chomp (cleaned_stream chunks).
Proof.
  intros chunks Hcount.
  destruct (feed_view chunks) as [Hl Hp].
  pose proof (length_split_nl (cleaned_stream chunks)) as Hlen.
  pose proof (split_nl_nonempty (cleaned_stream chunks)) as Hne.
  unfold log_content, OutputBuffer.snapshot. rewrite Hl, Hp.
  rewrite slice_last_short.
  2:{ rewrite (app_removelast_last [] Hne) in Hlen.
      rewrite length_app in Hlen. simpl in Hlen. lia. }
  clear Hl Hp Hlen Hne Hcount. generalize (cleaned_stream chunks). intro T.
  induction T as [|x s _] using rev_ind; [reflexivity|].
  rewrite chomp_snoc.
  destruct (N.eqb_spec x LF) as [->|E].
  - rewrite split_nl_snoc_LF, removelast_last, last_last. apply join_nl_split_nl.
  - rewrite (split_nl_snoc_other s x E), removelast_last, last_last.
    destruct (last (split_nl s) [] ++ [x]) as [|y ys] eqn:El.
    { destruct (last (split_nl s) []); discriminate. }
    rewrite <- El, <- (split_nl_snoc_other s x E). apply join_nl_split_nl.
Qed.

(** The theorem at two chunks that cut a line in two. *)
Lemma log_pane_shows_cleaned_stream_witness :
  log_content (OutputBuffer.feed OutputBuffer.empty [lit "one" ++ [LF] ++ lit "tw"; lit "o" ++ [LF]])
  = chomp (cleaned_stream [lit "one" ++ [LF] ++ lit "tw"; lit "o" ++ [LF]]).
Proof.
  apply (log_pane_shows_cleaned_stream [lit "one" ++ [LF] ++ lit "tw"; lit "o" ++ [LF]]).
  apply Nat.leb_le. vm_compute. reflexivity.
Defined.

(** *** Prompt detection on arriving data *)

Lemma detectPrompt_snapshot (b : OutputBuffer.t) (patterns : list RegExp) :
  detectPrompt (OutputBuffer.snapshot b) patterns
  = detectPrompt (OutputBuffer.lines b ++ [OutputBuffer.partial b]) patterns.
Proof.
  unfold OutputBuffer.snapshot. destruct (OutputBuffer.partial b); [|reflexivity].
  now rewrite detectPrompt_snoc.
Qed.

Lemma slice_last_snoc (A : Type) (n : nat) (d : A) (l : list A) :
  l <> [] -> slice_last n (removelast l) ++ [last l d] = slice_last (S n) l.
Proof.
  intro H. rewrite (app_removelast_last d H) at 3.
  unfold slice_last. rewrite skipn_app, length_app. simpl.
  replace (length (removelast l) + 1 - S n)%nat with (length (removelast l) - n)%nat by lia.
  replace (length (removelast l) - n - length (removelast l))%nat with 0%nat by lia.
  reflexivity.
Qed.

Lemma onData_as_stream (patterns : list RegExp) (chunks : list str) (data : str) :
  onData patterns (OutputBuffer.feed OutputBuffer.empty chunks) data
  = (OutputBuffer.feed OutputBuffer.empty (chunks ++ [data]),
     detectPrompt
       (slice_last 2001 (split_nl (cleaned_stream (chunks ++ [data])))) patterns).
Proof.
  unfold onData. rewrite <- feed_snoc. f_equal.
  rewrite detectPrompt_snapshot.
  destruct (feed_view (chunks ++ [data])) as [Hl Hp].
  rewrite Hl, Hp. rewrite slice_last_snoc by apply split_nl_nonempty. reflexivity.
Qed.

(** Two chunks clean to what their concatenation cleans to, unless a
    control sequence starts in the first and ends in the second. *)
Lemma cleaned_stream_pieces (chunks : list str) (a b : str) :
  straddles a b = false ->
  cleaned_stream ((chunks ++ [a]) ++ [b]) = cleaned_stream (chunks ++ [a ++ b]).
Proof.
  intro H. rewrite !cleaned_stream_snoc, (cleaned_app a b H).
  now rewrite app_assoc.
Qed.

(** X5.  When a chunk arrives, [promptDetected] becomes the answer of
    [detectPrompt] on the last 2001 segments of the cleaned text received
    so far, each chunk having been cleaned on its own.  A chunk that
    arrives cut in two pieces, the cut not falling inside a control
    sequence, leaves the buffer and [promptDetected] as the whole chunk
    does: a prompt cut that way is detected when its second piece
    arrives. *)
Theorem onData_detects_on_stream :
  forall (patterns : list RegExp) (chunks : list str) (data : str),
    onData patterns (OutputBuffer.feed OutputBuffer.empty chunks) data
    = (OutputBuffer.feed OutputBuffer.empty (chunks ++ [data]),
       detectPrompt
         (slice_last 2001 (split_nl (cleaned_stream (chunks ++ [data])))) patterns)
    /\ forall a b : str,
        data = a ++ b ->
        straddles a b = false ->
        onData patterns (OutputBuffer.feed OutputBuffer.empty (chunks ++ [a])) b
        = onData patterns (OutputBuffer.feed OutputBuffer.empty chunks) data.
Proof.
  intros patterns chunks data. split; [apply onData_as_stream|].
  intros a b -> H.
  rewrite (onData_as_stream patterns (chunks ++ [a]) b).
  rewrite (onData_as_stream patterns chunks (a ++ b)).
  rewrite (cleaned_stream_pieces chunks a b H).
  f_equal. rewrite !feed_as_parts.
  now rewrite (cleaned_stream_pieces chunks a b H).
Qed.

(** The theorem at the prompt [copilot> ] arriving as [copi] and
    [lot> ]. *)
Lemma onData_detects_on_stream_witness :
  onData DEFAULT_PROMPTS
         (OutputBuffer.feed OutputBuffer.empty ([] ++ [lit "copi"])) (lit "lot> ")
  = onData DEFAULT_PROMPTS (OutputBuffer.feed OutputBuffer.empty []) (lit "copilot> ").
Proof.
  refine (proj2 (onData_detects_on_stream DEFAULT_PROMPTS [] (lit "copilot> "))
                (lit "copi") (lit "lot> ") _ _); reflexivity.
Defined.

(** ** Prompt patterns *)

Lemma re_match_lit (p l : str) (k : str -> bool) :
  re_match (re_lit p) l k = true <-> exists rest, l = p ++ rest /\ k rest = true.
Proof.
  revert l. induction p as [|c p IH]; intro l; cbn [re_lit re_match].
  - split; [intro H; now exists l|intros (rest & -> & H); exact H].
  - destruct l as [|x l].
    + split; [discriminate|intros (rest & H & _); discriminate].
    + split.
      * intro H. apply andb_true_iff in H as [Hx H]. apply N.eqb_eq in Hx as ->.
        apply IH in H as (rest & -> & H). now exists rest.
      * intros (rest & E & H). injection E as -> ->.
        rewrite N.eqb_refl. apply IH. now exists rest.
Qed.

Lemma re_match_opt_space_end (rest : str) :
  re_match (Opt (Chr 32%N)) rest (fun r => match r with [] => true | _ => false end) = true
  <-> rest = [] \/ rest = [32%N].
Proof.
  cbn [re_match]. destruct rest as [|x [|y r]]; simpl.
  - split; auto.
  - rewrite orb_false_r, andb_true_r. rewrite N.eqb_eq.
    split; [intros ->; auto|intros [H|H]; [discriminate|now injection H]].
  - rewrite orb_false_r, andb_false_r.
    split; [discriminate|intros [H|H]; discriminate].
Qed.

Lemma test_default_prompts (l : str) :
  existsb (fun pattern => test pattern l) DEFAULT_PROMPTS = true
  <-> exists p, In p default_prompt_texts /\ (l = p \/ l = p ++ [32%N]).
Proof.
  assert (H1 : forall p, test (anchored (Cat (re_lit p) (Opt (Chr 32%N)))) l = true
                         <-> l = p \/ l = p ++ [32%N]).
  { intro p. cbn [test anchored re_match]. rewrite re_match_lit. split.
    - intros (rest & -> & H). apply re_match_opt_space_end in H as [-> | ->];
        [left; now rewrite app_nil_r|now right].
    - intros [-> | ->]; [exists []|exists [32%N]];
        (split; [now rewrite ?app_nil_r|reflexivity]). }
  assert (H3 : test (anchored (Cat (Chr 10095%N) (Opt (Chr 32%N)))) l = true
               <-> l = [10095%N] \/ l = [10095%N] ++ [32%N]).
  { rewrite <- (H1 [10095%N]). reflexivity. }
  unfold DEFAULT_PROMPTS, default_prompt_texts. cbn [existsb].
  rewrite orb_false_r, !orb_true_iff, (H1 (lit ">")), (H1 (lit "copilot>")), H3.
  split.
  - intros [H|[H|H]]; [exists (lit ">")|exists (lit "copilot>")|exists [10095%N]];
      (split; [simpl; tauto|exact H]).
  - intros (p & [<-|[<-|[<-|[]]]] & H); tauto.
Qed.

Lemma trimStart_head (s : str) (c : char) (r : str) :
  trimStart s = c :: r -> is_ws c = false.
Proof.
  induction s as [|x s IH]; simpl; [discriminate|].
  destruct (is_ws x) eqn:E; [exact IH|]. intro H; injection H as <- _. exact E.
Qed.

(** A trimmed text does not end in white space. *)
Lemma trim_last (s l : str) (c : char) : trim s = l ++ [c] -> is_ws c = false.
Proof.
  unfold trim, trimEnd. intro H.
  apply (f_equal (@rev N)) in H. rewrite rev_involutive, rev_app_distr in H.
  simpl in H. now apply trimStart_head in H.
Qed.

Lemma last_nonblank_is_trimmed (lines : list str) (l : str) :
  last_nonblank lines = Some l -> exists line, In line lines /\ l = trim line /\ l <> [].
Proof.
  unfold last_nonblank. intro H. apply find_some in H as [Hin Hne].
  apply in_rev in Hin. apply in_map_iff in Hin as (line & <- & Hin).
  exists line. repeat split; [exact Hin|]. intro E. now rewrite E in Hne.
Qed.

(** X6.  With the built-in patterns, [detectPrompt] answers true exactly
    when the last non-blank line, trimmed, is [>], [copilot>] or the
    glyph U+276F.  The optional space of the patterns never matters: the
    line is trimmed before it is tested. *)
Theorem default_prompts_detect_three_texts :
  forall lines : list str,
    detectPrompt lines DEFAULT_PROMPTS = true
    <-> exists p, In p default_prompt_texts /\ last_nonblank lines = Some p.
Proof.
  intro lines. rewrite detectPrompt_last_nonblank.
  destruct (last_nonblank lines) as [l|] eqn:E.
  - rewrite test_default_prompts. split.
    + intros (p & Hp & [-> | ->]); [now exists p|].
      exfalso. apply last_nonblank_is_trimmed in E as (line & _ & Ht & _).
      symmetry in Ht. now apply trim_last in Ht.
    + intros (p & Hp & H). injection H as ->. exists p. auto.
  - split; [discriminate|intros (p & _ & H); discriminate].
Qed.

Lemma detectPrompt_app (lines : list str) (ps qs : list RegExp) :
  detectPrompt lines (ps ++ qs) = detectPrompt lines ps || detectPrompt lines qs.
Proof.
  rewrite !detectPrompt_last_nonblank.
  destruct (last_nonblank lines); [apply existsb_app|reflexivity].
Qed.

(** X7.  Detection with two lists of patterns together is detection with
    the one or with the other: adding patterns never turns a detected
    prompt into an undetected one. *)
Theorem detectPrompt_with_more_patterns :
  forall (lines : list str) (ps qs : list RegExp),
    detectPrompt lines (ps ++ qs) = detectPrompt lines ps || detectPrompt lines qs.
Proof.
  intros lines ps qs. rewrite !detectPrompt_last_nonblank.
  destruct (last_nonblank lines); [apply existsb_app|reflexivity].
Qed.

(** ** Command line *)

Section ParseArgsMore.

Variable env_COPILOT_HOOKS_STATE : option str.
Variable home_state_file : str.
Variable new_RegExp : str -> option RegExp.

(** What a round can do. *)
Lemma round_cases (arg : str) (next : option str) (acc : Args) :
  match parseArgs_round new_RegExp arg next acc with
  | TakeTwo acc' =>
      exists v, next = Some v /\ v <> []
        /\ copilotArgs acc' = copilotArgs acc
        /\ ((copilot acc' = v /\ stateFile acc' = stateFile acc
             /\ promptPatterns acc' = promptPatterns acc)
            \/ (copilot acc' = copilot acc /\ stateFile acc' = v
                /\ promptPatterns acc' = promptPatterns acc)
            \/ (copilot acc' = copilot acc /\ stateFile acc' = stateFile acc
                /\ exists pattern, new_RegExp v = Some pattern
                     /\ promptPatterns acc' = promptPatterns acc ++ [pattern]))
  | TakeOne acc' => acc' = acc
  | Stop c =>
      (c = Exit 0 /\ arg = lit "--help")
      \/ (c = Throw SyntaxError /\ arg = lit "--prompt-regex"
          /\ exists v, next = Some v /\ new_RegExp v = None)
  end.
Proof.
  unfold parseArgs_round.
  assert (Ht : truthy next = true -> exists v, next = Some v /\ v <> []).
  { destruct next as [[|c v]|]; try discriminate. intros _. exists (c :: v).
    split; [reflexivity|discriminate]. }
  destruct (str_eqb arg (lit "--copilot") && truthy next) eqn:E1.
  { apply andb_true_iff in E1 as [_ E1]. destruct (Ht E1) as (v & -> & Hv).
    exists v. simpl. repeat split; auto. }
  destruct (str_eqb arg (lit "--state-file") && truthy next) eqn:E2.
  { apply andb_true_iff in E2 as [_ E2]. destruct (Ht E2) as (v & -> & Hv).
    exists v. simpl. repeat split; auto. }
  destruct (str_eqb arg (lit "--prompt-regex") && truthy next) eqn:E3.
  { apply andb_true_iff in E3 as [Ea E3]. apply str_eqb_eq in Ea.
    destruct (Ht E3) as (v & -> & Hv). cbn [option_str].
    destruct (new_RegExp v) as [pattern|] eqn:En.
    - exists v. simpl. repeat split; auto. right; right. repeat split. now exists pattern.
    - right. repeat split; auto. now exists v. }
  destruct (str_eqb arg (lit "--help")) eqn:E4; [|reflexivity].
  left. split; [reflexivity|now apply str_eqb_eq].
Qed.

(** Induction over the rounds of the loop. *)
Lemma parseArgs_loop_rounds (Q : list str -> Args -> Completion Args -> Prop) :
  (forall acc, Q [] acc (Normal acc)) ->
  (forall arg rest acc c,
      parseArgs_round new_RegExp arg (hd_error rest) acc = Stop c ->
      Q (arg :: rest) acc c) ->
  (forall arg rest acc,
      parseArgs_round new_RegExp arg (hd_error rest) acc = TakeOne acc ->
      Q rest acc (parseArgs_loop new_RegExp rest acc) ->
      Q (arg :: rest) acc (parseArgs_loop new_RegExp rest acc)) ->
  (forall arg v rest acc acc',
      parseArgs_round new_RegExp arg (Some v) acc = TakeTwo acc' ->
      Q rest acc' (parseArgs_loop new_RegExp rest acc') ->
      Q (arg :: v :: rest) acc (parseArgs_loop new_RegExp rest acc')) ->
  forall ws acc, Q ws acc (parseArgs_loop new_RegExp ws acc).
Proof.
  intros H0 Hstop Hone Htwo ws.
  remember (length ws) as n eqn:Hn. revert ws Hn.
  induction n as [n IH] using lt_wf_ind. intros ws Hn acc.
  destruct ws as [|arg rest]; [apply H0|].
  cbn [parseArgs_loop].
  destruct (parseArgs_round new_RegExp arg (hd_error rest) acc) as [acc'|acc'|c] eqn:E.
  - destruct rest as [|v rest].
    + apply round_TakeTwo in E as [_ E]. discriminate.
    + apply (Htwo arg v rest acc acc' E).
      apply (IH (length rest)); [subst n; simpl; lia|reflexivity].
  - pose proof (round_cases arg (hd_error rest) acc) as Hc. rewrite E in Hc. subst acc'.
    apply (Hone arg rest acc E).
    apply (IH (length rest)); [subst n; simpl; lia|reflexivity].
  - now apply Hstop.
Qed.

(** How the loop can end, and what it leaves in the configuration. *)
Lemma parseArgs_loop_outcome (ws : list str) (acc : Args) :
  match parseArgs_loop new_RegExp ws acc with
  | Normal a =>
      copilotArgs a = copilotArgs acc
      /\ (copilot a = copilot acc \/ (In (copilot a) ws /\ copilot a <> []))
      /\ (stateFile a = stateFile acc \/ (In (stateFile a) ws /\ stateFile a <> []))
      /\ exists extras,
           promptPatterns a = promptPatterns acc ++ extras
           /\ Forall (fun pattern => exists v, In v ws /\ new_RegExp v = Some pattern) extras
  | Exit n => n = 0%Z /\ In (lit "--help") ws
  | Throw e => e = SyntaxError /\ exists v, In v ws /\ new_RegExp v = None
  end.
Proof.
  revert ws acc.
  refine (parseArgs_loop_rounds
            (fun ws acc r =>
               match r with
               | Normal a =>
                   copilotArgs a = copilotArgs acc
                   /\ (copilot a = copilot acc \/ (In (copilot a) ws /\ copilot a <> []))
                   /\ (stateFile a = stateFile acc
                       \/ (In (stateFile a) ws /\ stateFile a <> []))
                   /\ exists extras,
                        promptPatterns a = promptPatterns acc ++ extras
                        /\ Forall (fun pattern =>
                                     exists v, In v ws /\ new_RegExp v = Some pattern) extras
               | Exit n => n = 0%Z /\ In (lit "--help") ws
               | Throw e => e = SyntaxError /\ exists v, In v ws /\ new_RegExp v = None
               end) _ _ _ _).
  - intro acc. repeat split; auto. exists []. split; [now rewrite app_nil_r|constructor].
  - intros arg rest acc c E.
    pose proof (round_cases arg (hd_error rest) acc) as Hc. rewrite E in Hc.
    destruct Hc as [[-> ->]|(-> & _ & v & Hv & Hn)].
    + split; [reflexivity|now left].
    + split; [reflexivity|]. exists v. split; [|exact Hn].
      right. destruct rest; [discriminate|]. injection Hv as ->. now left.
  - intros arg rest acc _ IH.
    destruct (parseArgs_loop new_RegExp rest acc) as [a|e|n].
    + destruct IH as (Ha & Hc & Hs & extras & Hp & Hf).
      split; [exact Ha|]. split; [|split].
      * destruct Hc as [Hc|[Hc Hne]]; [now left|right; split; [now right|exact Hne]].
      * destruct Hs as [Hs|[Hs Hne]]; [now left|right; split; [now right|exact Hne]].
      * exists extras. split; [exact Hp|].
        eapply Forall_impl; [|exact Hf]. intros p (v & Hv & Hn). exists v. split; [now right|exact Hn].
    + destruct IH as [-> (v & Hv & Hn)]. split; [reflexivity|]. exists v. split; [now right|exact Hn].
    + destruct IH as [-> Hh]. split; [reflexivity|now right].
  - intros arg v rest acc acc' E IH.
    pose proof (round_cases arg (Some v) acc) as Hc. rewrite E in Hc.
    destruct Hc as (v' & Hv' & Hne & Hargs & Hupd). injection Hv' as <-.
    destruct (parseArgs_loop new_RegExp rest acc') as [a|e|n].
    + destruct IH as (Ha & Hc & Hs & extras & Hp & Hf).
      assert (Hf' : Forall (fun pattern => exists v0, In v0 (arg :: v :: rest)
                                                      /\ new_RegExp v0 = Some pattern) extras).
      { eapply Forall_impl; [|exact Hf]. intros p (v0 & Hv0 & Hn).
        exists v0. split; [now right; right|exact Hn]. }
      split; [congruence|].
      destruct Hupd as [(U1 & U2 & U3)|[(U1 & U2 & U3)|(U1 & U2 & pattern & Hn & U3)]].
      * split; [|split].
        -- right. destruct Hc as [Hc|[Hc Hne']].
           ++ rewrite Hc, U1. split; [right; now left|exact Hne].
           ++ split; [now right; right|exact Hne'].
        -- destruct Hs as [Hs|[Hs Hne']]; [left; congruence|].
           right. split; [now right; right|exact Hne'].
        -- exists extras. split; [congruence|exact Hf'].
      * split; [|split].
        -- destruct Hc as [Hc|[Hc Hne']]; [left; congruence|].
           right. split; [now right; right|exact Hne'].
        -- right. destruct Hs as [Hs|[Hs Hne']].
           ++ rewrite Hs, U2. split; [right; now left|exact Hne].
           ++ split; [now right; right|exact Hne'].
        -- exists extras. split; [congruence|exact Hf'].
      * split; [|split].
        -- destruct Hc as [Hc|[Hc Hne']]; [left; congruence|].
           right. split; [now right; right|exact Hne'].
        -- destruct Hs as [Hs|[Hs Hne']]; [left; congruence|].
           right. split; [now right; right|exact Hne'].
        -- exists (pattern :: extras). split.
           ++ rewrite Hp, U3, <- app_assoc. reflexivity.
           ++ constructor; [|exact Hf']. exists v. split; [right; now left|exact Hn].
    + destruct IH as [-> (v0 & Hv0 & Hn)]. split; [reflexivity|].
      exists v0. split; [now right; right|exact Hn].
    + destruct IH as [-> Hh]. split; [reflexivity|now right; right].
Qed.

(** The configuration does not look at the arguments for copilot. *)
Lemma parseArgs_loop_forwarded (forwarded : list str) (ws : list str) (acc : Args) :
  parseArgs_loop new_RegExp ws (with_copilotArgs forwarded acc)
  = Completion_map (with_copilotArgs forwarded) (parseArgs_loop new_RegExp ws acc).
Proof.
  remember (length ws) as n eqn:Hn. revert ws Hn acc.
  induction n as [n IH] using lt_wf_ind. intros ws Hn acc.
  destruct ws as [|arg rest]; [reflexivity|].
  cbn [parseArgs_loop].
  assert (E : parseArgs_round new_RegExp arg (hd_error rest) (with_copilotArgs forwarded acc)
              = match parseArgs_round new_RegExp arg (hd_error rest) acc with
                | TakeTwo a => TakeTwo (with_copilotArgs forwarded a)
                | TakeOne a => TakeOne (with_copilotArgs forwarded a)
                | Stop c => Stop (Completion_map (with_copilotArgs forwarded) c)
                end).
  { unfold parseArgs_round.
    destruct (str_eqb arg (lit "--copilot") && truthy (hd_error rest)); [reflexivity|].
    destruct (str_eqb arg (lit "--state-file") && truthy (hd_error rest)); [reflexivity|].
    destruct (str_eqb arg (lit "--prompt-regex") && truthy (hd_error rest)).
    - destruct (new_RegExp (option_str (hd_error rest))); reflexivity.
    - destruct (str_eqb arg (lit "--help")); reflexivity. }
  rewrite E.
  destruct (parseArgs_round new_RegExp arg (hd_error rest) acc) as [a|a|c]; [| |reflexivity].
  - destruct rest as [|v rest]; [reflexivity|].
    apply (IH (length rest)); [subst n; simpl; lia|reflexivity].
  - apply (IH (length rest)); [subst n; simpl; lia|reflexivity].
Qed.

End ParseArgsMore.

Lemma parseArgs_as_loop (env_COPILOT_HOOKS_STATE : option str) (home_state_file : str)
      (new_RegExp : str -> option RegExp) (argv : list str) :
  parseArgs env_COPILOT_HOOKS_STATE home_state_file new_RegExp argv
  = parseArgs_loop new_RegExp (fst (split_at_separator argv))
      (default_Args env_COPILOT_HOOKS_STATE home_state_file
         (match snd (split_at_separator argv) with
          | Some args => args
          | None => []
          end)).
Proof. unfold parseArgs. now destruct (split_at_separator argv). Qed.

(** X8.  [parseArgs] ends in one of three ways.  It exits, with status 0,
    only when [--help] is among the tokens before the separator.  It
    throws, a [SyntaxError], only when one of these tokens is rejected by
    [new RegExp].  When there is no [--help] among them and [new RegExp]
    accepts each of them, it returns a configuration. *)
Theorem parseArgs_exits_only_for_help :
  forall (env_COPILOT_HOOKS_STATE : option str) (home_state_file : str)
         (new_RegExp : str -> option RegExp) (argv : list str),
    let wrapperArgs := fst (split_at_separator argv) in
    let result := parseArgs env_COPILOT_HOOKS_STATE home_state_file new_RegExp argv in
    (forall n, result = Exit n -> n = 0%Z /\ In (lit "--help") wrapperArgs)
    /\ (forall e, result = Throw e ->
                  e = SyntaxError /\ exists v, In v wrapperArgs /\ new_RegExp v = None)
    /\ (~ In (lit "--help") wrapperArgs ->
        (forall v, In v wrapperArgs -> new_RegExp v <> None) ->
        exists a, result = Normal a).
Proof.
  intros env home new_RegExp argv wrapperArgs result.
  subst result. rewrite parseArgs_as_loop. fold wrapperArgs.
  match goal with
  | |- context [parseArgs_loop new_RegExp wrapperArgs ?acc] =>
      pose proof (parseArgs_loop_outcome new_RegExp wrapperArgs acc) as H;
      destruct (parseArgs_loop new_RegExp wrapperArgs acc) as [a|e|n]
  end.
  - split; [discriminate|]. split; [discriminate|]. intros _ _. now exists a.
  - split; [discriminate|]. split.
    + intros e' E. injection E as <-. exact H.
    + intros _ Hall. destruct H as [_ (v & Hv & Hn)]. now apply Hall in Hv.
  - split.
    + intros n' E. injection E as <-. exact H.
    + split; [discriminate|]. intros Hh _. destruct H as [_ H]. contradiction.
Qed.

(** X9.  In a configuration that [parseArgs] returns, the copilot path
    and the state file path are not empty, the prompt patterns are the
    three built-in ones followed by patterns compiled from tokens of
    argv, so that every prompt the built-in patterns detect is still
    detected, and the arguments for copilot are the tokens after the
    first separator. *)
Theorem parseArgs_keeps_the_defaults :
  forall (env_COPILOT_HOOKS_STATE : option str) (home_state_file : str)
         (new_RegExp : str -> option RegExp) (argv : list str) (a : Args),
    home_state_file <> [] ->
    parseArgs env_COPILOT_HOOKS_STATE home_state_file new_RegExp argv = Normal a ->
    copilot a <> []
    /\ stateFile a <> []
    /\ (exists extras,
           promptPatterns a = DEFAULT_PROMPTS ++ extras
           /\ Forall (fun pattern => exists v, In v argv /\ new_RegExp v = Some pattern) extras)
    /\ (forall lines,
           detectPrompt lines DEFAULT_PROMPTS = true ->
           detectPrompt lines (promptPatterns a) = true)
    /\ copilotArgs a = match snd (split_at_separator argv) with
                       | Some args => args
                       | None => []
                       end.
Proof.
  intros env home new_RegExp argv a Hhome H.
  rewrite parseArgs_as_loop in H.
  match type of H with
  | parseArgs_loop _ ?ws ?acc = _ =>
      pose proof (parseArgs_loop_outcome new_RegExp ws acc) as Ho; rewrite H in Ho
  end.
  destruct Ho as (Ha & Hc & Hs & extras & Hp & Hf).
  assert (Hw : incl (fst (split_at_separator argv)) argv).
  { clear. induction argv as [|t argv IH]; [apply incl_refl|].
    cbn [split_at_separator]. destruct (str_eqb t (lit "--")); [intros x []|].
    destruct (split_at_separator argv) as [w c]. simpl in *.
    intros x [<-|Hx]; [now left|right; now apply IH]. }
  split; [|split; [|split; [|split]]].
  - destruct Hc as [Hc|[_ Hc]]; [rewrite Hc; discriminate|exact Hc].
  - destruct Hs as [Hs|[_ Hs]]; [|exact Hs]. rewrite Hs. cbn [stateFile default_Args].
    destruct env as [[|c e]|]; simpl; try exact Hhome. discriminate.
  - exists extras. split; [exact Hp|].
    eapply Forall_impl; [|exact Hf]. intros p (v & Hv & Hn).
    exists v. split; [now apply Hw|exact Hn].
  - intros lines Hd. rewrite Hp. cbn [promptPatterns default_Args].
    rewrite detectPrompt_app, Hd. reflexivity.
  - exact Ha.
Qed.

(** The theorem at [--prompt-regex ready -- chat]. *)
Lemma parseArgs_keeps_the_defaults_witness :
  copilotArgs
    {| copilot := lit "copilot"; stateFile := example_state_file;
       promptPatterns := DEFAULT_PROMPTS ++ [anchored (re_lit (lit "ready"))];
       copilotArgs := [lit "chat"] |}
  = match snd (split_at_separator
                 [lit "--prompt-regex"; lit "ready"; lit "--"; lit "chat"]) with
    | Some args => args
    | None => []
    end.
Proof.
  refine (proj2 (proj2 (proj2 (proj2
            (parseArgs_keeps_the_defaults None example_state_file example_new_RegExp
               [lit "--prompt-regex"; lit "ready"; lit "--"; lit "chat"] _ _ _))))).
  - discriminate.
  - reflexivity.
Defined.

Lemma split_at_separator_none (w : list str) :
  no_separator w = true -> split_at_separator w = (w, None).
Proof.
  intro H. rewrite <- (app_nil_r w) at 1.
  rewrite (split_at_separator_app w [] H). simpl. now rewrite app_nil_r.
Qed.

(** X10.  The tokens after the first separator are handed over as they
    are and are never read as wrapper flags: with them, [parseArgs] ends
    as it does on the tokens before the separator alone, the arguments
    for copilot apart.  A [--help] or a flag without value after the
    separator has no effect. *)
Theorem forwarded_arguments_are_not_parsed :
  forall (env_COPILOT_HOOKS_STATE : option str) (home_state_file : str)
         (new_RegExp : str -> option RegExp) (wrapperArgs forwarded : list str),
    no_separator wrapperArgs = true ->
    parseArgs env_COPILOT_HOOKS_STATE home_state_file new_RegExp
              (wrapperArgs ++ lit "--" :: forwarded)
    = Completion_map (with_copilotArgs forwarded)
        (parseArgs env_COPILOT_HOOKS_STATE home_state_file new_RegExp wrapperArgs).
Proof.
  intros env home new_RegExp w forwarded Hw.
  rewrite !parseArgs_as_loop.
  rewrite (split_at_separator_app w _ Hw), (split_at_separator_none w Hw).
  change (split_at_separator (lit "--" :: forwarded)) with ([] : list str, Some forwarded).
  cbn [fst snd]. rewrite app_nil_r.
  rewrite <- parseArgs_loop_forwarded. reflexivity.
Qed.

(** The theorem at [--copilot /bin/cp -- --help]. *)
Lemma forwarded_arguments_are_not_parsed_witness :
  parseArgs None example_state_file example_new_RegExp
            ([lit "--copilot"; lit "/bin/cp"] ++ lit "--" :: [lit "--help"])
  = Completion_map (with_copilotArgs [lit "--help"])
      (parseArgs None example_state_file example_new_RegExp [lit "--copilot"; lit "/bin/cp"]).
Proof.
  apply (forwarded_arguments_are_not_parsed None example_state_file example_new_RegExp
           [lit "--copilot"; lit "/bin/cp"] [lit "--help"]).
  reflexivity.
Defined.

(** ** Polling the hook state file *)

Lemma refresh_with_previous (v : HookVars) (s : HookState) (log : list FsCall) :
  match var_hookMtime v with
  | Some m =>
      if negb (option_Z_eqb (Some m) (var_hookMtime v))
      then ({| var_hookState := s; var_hookMtime := Some m |}, log)
      else (v, log)
  | None => ({| var_hookState := unknown; var_hookMtime := None |}, log)
  end = (keep_or_reset v, log).
Proof.
  unfold keep_or_reset. destruct (var_hookMtime v) as [p|]; [|reflexivity].
  simpl. now rewrite Z.eqb_refl.
Qed.

(** [refreshHookState], case by case. *)
Lemma refreshHookState_cases (fs : FileSystem) (path : str) (v : HookVars) :
  refreshHookState fs path v =
    match statSync fs path with
    | Normal m =>
        if same_mtime (var_hookMtime v) m then (v, [CallStat path])
        else
          (match readFileSync fs path with
           | Normal raw =>
               match content_state raw with
               | Some s => {| var_hookState := s; var_hookMtime := Some m |}
               | None => if parses_to_readable raw then initial_HookVars
                         else keep_or_reset v
               end
           | Throw e => after_exception e v
           | Exit _ => initial_HookVars
           end, [CallStat path; CallRead path])
    | Throw e => (after_exception e v, [CallStat path])
    | Exit _ => (initial_HookVars, [CallStat path])
    end.
Proof.
  unfold refreshHookState.
  destruct (statSync fs path) as [m|e|n] eqn:Es.
  - destruct (same_mtime (var_hookMtime v) m) eqn:Em.
    + pose proof Em as Em'. unfold same_mtime in Em'.
      destruct (var_hookMtime v) as [p|] eqn:Ev; [|discriminate].
      apply Z.eqb_eq in Em'. subst p.
      rewrite (readHookState_unchanged fs path m Es). cbn [mtime state option_Z_eqb].
      now rewrite Z.eqb_refl.
    + destruct (readFileSync fs path) as [raw|e|n] eqn:Er.
      * rewrite (readHookState_read fs path _ m raw Es Em Er).
        unfold content_state, parses_to_readable.
        destruct (JSON_parse raw) as [j|e|n] eqn:Ep.
        -- destruct (get_state j) as [st|e|n] eqn:Eg.
           ++ destruct (recognized_state st) as [s|]; [|reflexivity].
              cbn [mtime state].
              assert (E : option_Z_eqb (Some m) (var_hookMtime v) = false).
              { unfold option_Z_eqb, same_mtime in *.
                destruct (var_hookMtime v); [exact Em|reflexivity]. }
              rewrite E. reflexivity.
           ++ apply get_state_throws in Eg as [-> _]. cbn [not_ENOENT exn_code mtime state].
              apply refresh_with_previous.
           ++ now apply get_state_no_exit in Eg.
        -- apply JSON_parse_throws in Ep as ->. cbn [not_ENOENT exn_code mtime state].
           apply refresh_with_previous.
        -- now apply JSON_parse_no_exit in Ep.
      * unfold readHookState, readHookState_try, bind, do_stat, do_read.
        rewrite Es, Em, Er. unfold after_exception.
        destruct (not_ENOENT e); cbn [mtime state]; [|reflexivity].
        apply refresh_with_previous.
      * unfold readHookState, readHookState_try, bind, do_stat, do_read.
        rewrite Es, Em, Er. reflexivity.
  - unfold readHookState, readHookState_try, bind, do_stat. rewrite Es.
    unfold after_exception.
    destruct (not_ENOENT e); cbn [mtime state]; [|reflexivity].
    apply refresh_with_previous.
  - unfold readHookState, readHookState_try, bind, do_stat. rewrite Es. reflexivity.
Qed.

Lemma polls_unchanged (ticks : list FileSystem) (path : str) (v : HookVars) (m : Z) :
  var_hookMtime v = Some m ->
  Forall (fun fs => statSync fs path = Normal m) ticks ->
  polls ticks path v = (v, repeat (CallStat path) (length ticks)).
Proof.
  intros Hv H. induction H as [|fs ticks Hs _ IH]; [reflexivity|].
  cbn [polls]. rewrite refreshHookState_cases, Hs, Hv. cbn [same_mtime].
  rewrite Z.eqb_refl, IH. reflexivity.
Qed.

(** X11.  While the modification time of the state file stays the one
    that is stored, polling changes neither the stored state nor the
    stored timestamp and never reads the file: each poll makes one
    [statSync] call and nothing else, even if the content has changed. *)
Theorem unchanged_file_is_not_read_again :
  forall (ticks : list FileSystem) (path : str) (s : HookState) (m : Z),
    Forall (fun fs => statSync fs path = Normal m) ticks ->
    polls ticks path {| var_hookState := s; var_hookMtime := Some m |}
    = ({| var_hookState := s; var_hookMtime := Some m |},
       repeat (CallStat path) (length ticks)).
Proof. intros ticks path s m H. now apply (polls_unchanged ticks path _ m). Qed.

(** The theorem at two ticks on files with the same time and different
    contents. *)
Lemma unchanged_file_is_not_read_again_witness :
  polls [single_file example_state_file 7 idle_content;
         single_file example_state_file 7 busy_content]
        example_state_file {| var_hookState := idle; var_hookMtime := Some 7%Z |}
  = ({| var_hookState := idle; var_hookMtime := Some 7%Z |},
     repeat (CallStat example_state_file) 2).
Proof.
  apply (unchanged_file_is_not_read_again
           [single_file example_state_file 7 idle_content;
            single_file example_state_file 7 busy_content]
           example_state_file idle 7).
  repeat constructor.
Defined.

(** X12.  From start-up, polling a file that stays the same and declares
    a state stores that state and the file's modification time at the
    first poll, where the file is read once, and keeps both from then
    on without reading the file again. *)
Theorem first_poll_reads_later_polls_keep :
  forall (fs : FileSystem) (path : str) (m : Z) (raw : str) (s : HookState) (n : nat),
    statSync fs path = Normal m ->
    readFileSync fs path = Normal raw ->
    content_state raw = Some s ->
    polls (repeat fs (S n)) path initial_HookVars
    = ({| var_hookState := s; var_hookMtime := Some m |},
       [CallStat path; CallRead path] ++ repeat (CallStat path) n).
Proof.
  intros fs path m raw s n Hs Hr Hc.
  cbn [repeat polls]. rewrite refreshHookState_cases, Hs, Hr, Hc. cbn [same_mtime initial_HookVars var_hookMtime].
  rewrite (polls_unchanged (repeat fs n) path
             {| var_hookState := s; var_hookMtime := Some m |} m eq_refl).
  - now rewrite repeat_length.
  - apply Forall_forall. intros x Hx. apply repeat_spec in Hx. now subst.
Qed.

(** The theorem at the example state file and three polls. *)
Lemma first_poll_reads_later_polls_keep_witness :
  polls (repeat (single_file example_state_file 10 idle_content) 3)
        example_state_file initial_HookVars
  = ({| var_hookState := idle; var_hookMtime := Some 10%Z |},
     [CallStat example_state_file; CallRead example_state_file]
       ++ repeat (CallStat example_state_file) 2).
Proof.
  apply (first_poll_reads_later_polls_keep
           (single_file example_state_file 10 idle_content)
           example_state_file 10 idle_content idle 2); reflexivity.
Defined.

(** X13.  When [statSync], or [readFileSync] after it, throws: an
    [ENOENT] resets the stored state to unknown and the stored timestamp
    to none; any other exception leaves both as they are, provided a
    timestamp is stored.  The poll itself never throws. *)
Theorem file_errors_reset_or_keep :
  forall (fs : FileSystem) (path : str) (v : HookVars) (e : Exn),
    (statSync fs path = Throw e
     \/ exists m, statSync fs path = Normal m
                  /\ same_mtime (var_hookMtime v) m = false
                  /\ readFileSync fs path = Throw e) ->
    (e = ErrnoException (lit "ENOENT") ->
     fst (refreshHookState fs path v) = initial_HookVars)
    /\ (not_ENOENT e = true -> var_hookMtime v <> None ->
        fst (refreshHookState fs path v) = v)
    /\ (not_ENOENT e = true -> var_hookMtime v = None ->
        fst (refreshHookState fs path v) = initial_HookVars).
Proof.
  intros fs path v e H.
  assert (E : fst (refreshHookState fs path v) = after_exception e v).
  { rewrite refreshHookState_cases.
    destruct H as [Hs|(m & Hs & Hm & Hr)]; [now rewrite Hs|now rewrite Hs, Hm, Hr]. }
  rewrite E. unfold after_exception, keep_or_reset.
  split; [intros ->; reflexivity|].
  split; intros Hn Hv; rewrite Hn.
  - destruct (var_hookMtime v); [reflexivity|contradiction].
  - now rewrite Hv.
Qed.

(** The theorem at a state file that cannot be read for lack of
    permission, with the state idle stored. *)
Lemma file_errors_reset_or_keep_witness :
  fst (refreshHookState
         {| statSync := fun _ => Throw (ErrnoException (lit "EACCES"));
            readFileSync := fun _ => Throw (ErrnoException (lit "EACCES")) |}
         example_state_file
         {| var_hookState := idle; var_hookMtime := Some 4%Z |})
  = {| var_hookState := idle; var_hookMtime := Some 4%Z |}.
Proof.
  refine (proj1 (proj2 (file_errors_reset_or_keep
            {| statSync := fun _ => Throw (ErrnoException (lit "EACCES"));
               readFileSync := fun _ => Throw (ErrnoException (lit "EACCES")) |}
            example_state_file
            {| var_hookState := idle; var_hookMtime := Some 4%Z |}
            (ErrnoException (lit "EACCES")) _)) _ _).
  - left. reflexivity.
  - reflexivity.
  - discriminate.
Defined.

(** X14.  When a poll reads a content that declares no state: if the
    content does not parse, or parses to [null], and a timestamp is
    stored, the stored state and timestamp stay as they are, also a
    stored busy or idle; if the content parses to another value, both
    are reset to unknown and none. *)
Theorem unparseable_content_keeps_stored_state :
  forall (fs : FileSystem) (path : str) (v : HookVars) (m : Z) (raw : str),
    statSync fs path = Normal m ->
    same_mtime (var_hookMtime v) m = false ->
    readFileSync fs path = Normal raw ->
    content_state raw = None ->
    (parses_to_readable raw = false -> var_hookMtime v <> None ->
     fst (refreshHookState fs path v) = v)
    /\ (parses_to_readable raw = true ->
        fst (refreshHookState fs path v) = initial_HookVars).
Proof.
  intros fs path v m raw Hs Hm Hr Hc.
  rewrite refreshHookState_cases, Hs, Hm, Hr, Hc. cbn [fst].
  split.
  - intros -> Hv. unfold keep_or_reset. destruct (var_hookMtime v); [reflexivity|contradiction].
  - intros ->. reflexivity.
Qed.

(** The theorem at a state file caught empty while the state idle is
    stored. *)
Lemma unparseable_content_keeps_stored_state_witness :
  fst (refreshHookState (single_file example_state_file 9 [])
         example_state_file {| var_hookState := idle; var_hookMtime := Some 4%Z |})
  = {| var_hookState := idle; var_hookMtime := Some 4%Z |}.
Proof.
  refine (proj1 (unparseable_content_keeps_stored_state
                   (single_file example_state_file 9 []) example_state_file
                   {| var_hookState := idle; var_hookMtime := Some 4%Z |} 9 [] _ _ _ _) _ _).
  - reflexivity.
  - reflexivity.
  - reflexivity.
  - reflexivity.
  - reflexivity.
  - discriminate.
Defined.

Lemma backed_by_more (pre more : list FileSystem) (path : str) (v : HookVars) :
  backed_by pre path v -> backed_by (pre ++ more) path v.
Proof.
  intros [H1 H2]. split; [exact H1|]. intro H.
  destruct (H2 H) as (fs & m & raw & Hin & Hrest).
  exists fs, m, raw. split; [apply in_or_app; now left|exact Hrest].
Qed.

Lemma backed_by_initial (ticks : list FileSystem) (path : str) :
  backed_by ticks path initial_HookVars.
Proof. split; [reflexivity|]. intro H. now contradiction H. Qed.

Lemma refresh_backed (pre : list FileSystem) (fs : FileSystem) (path : str) (v : HookVars) :
  backed_by pre path v ->
  backed_by (pre ++ [fs]) path (fst (refreshHookState fs path v)).
Proof.
  intro Hv.
  assert (Hkeep : backed_by (pre ++ [fs]) path v) by now apply backed_by_more.
  assert (Hinit : backed_by (pre ++ [fs]) path initial_HookVars) by apply backed_by_initial.
  assert (Hkr : backed_by (pre ++ [fs]) path (keep_or_reset v)).
  { unfold keep_or_reset. now destruct (var_hookMtime v). }
  assert (Hexn : forall e, backed_by (pre ++ [fs]) path (after_exception e v)).
  { intro e. unfold after_exception. now destruct (not_ENOENT e). }
  rewrite refreshHookState_cases.
  destruct (statSync fs path) as [m|e|n] eqn:Es; cbn [fst]; auto.
  destruct (same_mtime (var_hookMtime v) m); cbn [fst]; auto.
  destruct (readFileSync fs path) as [raw|e|n] eqn:Er; auto.
  destruct (content_state raw) as [s|] eqn:Ec.
  - split; [discriminate|]. intros _. exists fs, m, raw.
    split; [apply in_or_app; right; now left|]. auto.
  - now destruct (parses_to_readable raw).
Qed.

Lemma polls_backed (ticks : list FileSystem) (path : str) :
  forall (pre : list FileSystem) (v : HookVars),
    backed_by pre path v ->
    backed_by (pre ++ ticks) path (fst (polls ticks path v)).
Proof.
  induction ticks as [|fs ticks IH]; intros pre v Hv.
  - rewrite app_nil_r. exact Hv.
  - cbn [polls].
    pose proof (refresh_backed pre fs path v Hv) as H1.
    destruct (refreshHookState fs path v) as [v1 log1]. cbn [fst] in H1.
    pose proof (IH (pre ++ [fs]) v1 H1) as H2.
    destruct (polls ticks path v1) as [v2 log2]. cbn [fst] in *.
    now rewrite <- app_assoc in H2.
Qed.

(** X15.  Whatever happens to the state file from start-up on, the stored
    state is busy or idle only if some poll found the file with the
    stored modification time and a content that declares that state; in
    particular no state but unknown is stored without a timestamp. *)
Theorem stored_state_comes_from_the_file :
  forall (ticks : list FileSystem) (path : str),
    let v := fst (polls ticks path initial_HookVars) in
    (var_hookMtime v = None -> var_hookState v = unknown)
    /\ (var_hookState v <> unknown ->
        exists fs m raw,
          In fs ticks /\ statSync fs path = Normal m /\ readFileSync fs path = Normal raw
          /\ content_state raw = Some (var_hookState v) /\ var_hookMtime v = Some m).
Proof.
  intros ticks path v.
  exact (polls_backed ticks path [] initial_HookVars (backed_by_initial [] path)).
Qed.

(** ** The hook script and the reader *)

Ltac eval_lit t := let v := eval vm_compute in t in change t with v.

Lemma digits_app (ds rest : str) (c : char) :
  forallb is_digit ds = true -> is_digit c = false ->
  digits (ds ++ c :: rest) = (ds, c :: rest).
Proof.
  intros H Hc. induction ds as [|d ds IH]; simpl.
  - now rewrite Hc.
  - simpl in H. apply andb_true_iff in H as [Hd H]. rewrite Hd, (IH H). reflexivity.
Qed.

Lemma decimal_cases (now : str) :
  decimal now = true ->
  exists d ds, now = d :: ds /\ is_digit d = true /\ forallb is_digit ds = true
               /\ (N.eqb d 48 && negb (Nat.eqb (length ds) 0) = false).
Proof.
  destruct now as [|d [|d' ds]]; simpl; try discriminate.
  - intro H. exists d, []. repeat split; auto. now rewrite andb_false_r.
  - intro H. apply andb_true_iff in H as [H H2]. apply andb_true_iff in H as [H0 H1].
    exists d, (d' :: ds). repeat split; auto.
    apply negb_true_iff in H1. now rewrite H1.
Qed.

Lemma json_number_decimal (now rest : str) :
  decimal now = true ->
  json_number (now ++ 125%N :: rest) = Some (now, 125%N :: rest).
Proof.
  intro H. destruct (decimal_cases now H) as (d & ds & -> & Hd & Hds & Hz).
  unfold json_number.
  assert (Hm : N.eqb d 45 = false).
  { unfold is_digit in Hd. apply andb_true_iff in Hd as [H1 H2].
    apply N.leb_le in H1, H2. apply N.eqb_neq. lia. }
  cbn [app]. rewrite Hm.
  change (d :: ds ++ 125%N :: rest) with ((d :: ds) ++ 125%N :: rest).
  rewrite (digits_app (d :: ds) rest 125) by (simpl; now rewrite ?Hd, ?Hds).
  rewrite Hz. simpl. now rewrite !app_nil_r.
Qed.

(** The parser reads a decimal numeral before a closing brace as that
    number. *)
Lemma json_value_decimal (fuel : nat) (now rest : str) :
  decimal now = true ->
  json_value (S fuel) (now ++ 125%N :: rest) = Some (JNumber now, 125%N :: rest).
Proof.
  intro H. pose proof (json_number_decimal now rest H) as Hn.
  destruct (decimal_cases now H) as (d & ds & -> & Hd & Hds & Hz).
  assert (Hr : (48 <= d <= 57)%N).
  { unfold is_digit in Hd. apply andb_true_iff in Hd as [H1 H2].
    apply N.leb_le in H1, H2. lia. }
  cbn [json_value app] in *.
  assert (Hws : is_json_ws d = false).
  { unfold is_json_ws. repeat (apply orb_false_iff; split); apply N.eqb_neq; lia. }
  cbn [skip_json_ws]. rewrite Hws.
  replace (N.eqb d 34) with false by (symmetry; apply N.eqb_neq; lia).
  replace (N.eqb d 123) with false by (symmetry; apply N.eqb_neq; lia).
  replace (N.eqb d 91) with false by (symmetry; apply N.eqb_neq; lia).
  eval_lit (lit "true"). eval_lit (lit "false"). eval_lit (lit "null").
  cbn [starts_with].
  replace (N.eqb 116 d) with false by (symmetry; apply N.eqb_neq; lia).
  replace (N.eqb 102 d) with false by (symmetry; apply N.eqb_neq; lia).
  replace (N.eqb 110 d) with false by (symmetry; apply N.eqb_neq; lia).
  rewrite Hn. reflexivity.
Qed.

(** The parser reads a plain text between quotation marks as that text. *)
Lemma json_chars_plain (s rest : str) :
  plain_text s = true -> json_chars (s ++ 34%N :: rest) = Some (s, rest).
Proof.
  intro H. induction s as [|c s IH]; [reflexivity|].
  cbn [plain_text forallb] in H. apply andb_true_iff in H as [Hc H].
  apply andb_true_iff in Hc as [Hc H3]. apply andb_true_iff in Hc as [H1 H2].
  apply negb_true_iff in H1, H2, H3.
  cbn [app json_chars]. rewrite H1, H2, H3, (IH H). reflexivity.
Qed.

Lemma json_value_plain_string (fuel : nat) (s rest : str) :
  plain_text s = true ->
  json_value (S fuel) (34%N :: s ++ 34%N :: rest) = Some (JString s, rest).
Proof.
  intro H. cbn [json_value skip_json_ws]. change (is_json_ws 34) with false.
  cbn [N.eqb Pos.eqb]. now rewrite (json_chars_plain s rest H).
Qed.

Lemma JSON_parse_hook_output (STATE now : str) :
  plain_text STATE = true -> decimal now = true ->
  JSON_parse (hook_output STATE now)
  = Normal (JObject [(lit "state", JString STATE); (lit "timestamp", JNumber now)]).
Proof.
  intros Hp H. unfold JSON_parse.
  remember (length (hook_output STATE now)) as F eqn:HF.
  unfold hook_output.
  eval_lit (dq "{'state':'"). eval_lit (dq "','timestamp':"). eval_lit (lit "}").
  cbn.
  destruct F as [|f]; [discriminate HF|]. clear HF.
  rewrite (json_value_plain_string f STATE _ Hp). cbn -[json_value].
  change (now ++ [125%N; LF]) with (now ++ 125%N :: [LF]).
  rewrite (json_value_decimal f now [LF] H).
  cbn -[json_value]. reflexivity.
Qed.

Lemma content_state_hook_output (STATE now : str) :
  plain_text STATE = true -> decimal now = true ->
  content_state (hook_output STATE now) = recognized_state (Some (JString STATE))
  /\ parses_to_readable (hook_output STATE now) = true.
Proof.
  intros Hp H. unfold content_state, parses_to_readable.
  rewrite (JSON_parse_hook_output STATE now Hp H).
  cbn [get_state lookup_member]. rewrite str_eqb_refl.
  eval_lit (str_eqb (lit "timestamp") (lit "state")). split; reflexivity.
Qed.

(** X16.  What the hook script writes is what the reader reads.  Called
    with a word as its argument (no quotation mark, backslash or control
    character in it), at any time of the clock, the script writes a
    content that the next poll, finding the file under a new modification
    time, reads as busy for the word [busy], as idle for the word [idle],
    both with the new time, and as unknown with no timestamp for every
    other word.  Called without argument, or with an empty one, the
    script writes nothing. *)
Theorem hook_script_output_is_read_back :
  forall (STATE now path : str) (m : Z) (prev : option Z),
    STATE <> [] ->
    plain_text STATE = true ->
    decimal now = true ->
    prev <> Some m ->
    exists content,
      copilot_hook (Some STATE) now = Some content
      /\ (STATE = lit "busy" ->
          fst (readHookState (single_file path m content) path prev)
          = {| state := busy; mtime := Some m |})
      /\ (STATE = lit "idle" ->
          fst (readHookState (single_file path m content) path prev)
          = {| state := idle; mtime := Some m |})
      /\ (STATE <> lit "busy" -> STATE <> lit "idle" ->
          fst (readHookState (single_file path m content) path prev)
          = {| state := unknown; mtime := None |})
      /\ copilot_hook None now = None
      /\ copilot_hook (Some []) now = None.
Proof.
  intros STATE now path m prev Hne Hp Hd Hm.
  exists (hook_output STATE now).
  split; [destruct STATE; [contradiction|reflexivity]|].
  pose proof (JSON_parse_hook_output STATE now Hp Hd) as Ep.
  assert (E : fst (readHookState (single_file path m (hook_output STATE now)) path prev)
              = match recognized_state (Some (JString STATE)) with
                | Some s => {| state := s; mtime := Some m |}
                | None => {| state := unknown; mtime := None |}
                end).
  { rewrite (readHookState_read _ path prev m (hook_output STATE now)
               (single_file_stat path m _)
               (proj2 (same_mtime_false_neq prev m) Hm)
               (single_file_read path m _)).
    rewrite Ep. cbn [fst get_state lookup_member]. rewrite str_eqb_refl.
    eval_lit (str_eqb (lit "timestamp") (lit "state")). reflexivity. }
  rewrite E. cbn [recognized_state].
  split; [intros ->; reflexivity|].
  split; [intros ->; reflexivity|].
  split; [|split; reflexivity].
  intros Hb Hi. apply str_eqb_neq in Hb, Hi. now rewrite Hb, Hi.
Qed.

(** The theorem at the word [idle] and the second 1700000000. *)
Lemma hook_script_output_is_read_back_witness :
  exists content,
    copilot_hook (Some (lit "idle")) (lit "1700000000") = Some content
    /\ fst (readHookState (single_file example_state_file 5 content) example_state_file None)
       = {| state := idle; mtime := Some 5%Z |}.
Proof.
  destruct (hook_script_output_is_read_back (lit "idle") (lit "1700000000")
              example_state_file 5 None)
    as (content & Hc & _ & Hi & _).
  - discriminate.
  - reflexivity.
  - reflexivity.
  - discriminate.
  - exists content. split; [exact Hc|]. apply Hi. reflexivity.
Defined.

(** ** The game from its first state on *)

Lemma half_in_range (n : Z) : (5 <= n -> 0 <= n / 2 < n)%Z.
Proof.
  intro H. split.
  - apply Z.div_pos; lia.
  - apply Z.div_lt_upper_bound; lia.
Qed.

(** What every operation keeps: a grid of at least 5 by 5, the player on
    the grid, a score between 0 and a bound that grows by one. *)
Lemma apply_keeps_shape (o : Game.op) (g : Game.t) (rng : list Q) (g' : Game.t)
      (rng' : list Q) (bound : Z) :
  (5 <= Game.width g)%Z -> (5 <= Game.height g)%Z -> in_grid g (Game.player g) ->
  (0 <= Game.score g <= bound)%Z ->
  Game.apply o g rng = Some (g', rng') ->
  (5 <= Game.width g')%Z /\ (5 <= Game.height g')%Z /\ in_grid g' (Game.player g')
  /\ (0 <= Game.score g' <= bound + 1)%Z
  /\ Game.same_cell (Game.target g') (Game.player g') = false.
Proof.
  intros Hw Hh [Hx Hy] Hs H. unfold in_grid.
  destruct o as [dx dy|w h|]; cbn [Game.apply] in H.
  - destruct (move_sound g dx dy rng g' rng' H) as (Ew & Eh & Ep & Es & _ & Ec).
    assert (Hc : Game.same_cell (Game.target g') (Game.player g') = false) by (apply Ec; lia).
    refine (conj _ (conj _ (conj _ (conj _ Hc)))); clear Hc Ec.
    all: rewrite ?Ew, ?Eh, ?Ep, ?Es; unfold moved_player, clamp; cbn [Game.x Game.y].
    all: try lia.
    destruct (captures g dx dy); lia.
  - destruct (resize_sound g w h rng g' rng' H) as (Ew & Eh & Ep & Es & Ec).
    refine (conj _ (conj _ (conj _ (conj _ Ec)))); clear Ec.
    all: rewrite ?Ew, ?Eh, ?Ep, ?Es; cbn [Game.x Game.y]; lia.
  - destruct (reset_sound g rng g' rng' H) as (Ew & Eh & Ep & Es & Ec).
    assert (Hc : Game.same_cell (Game.target g') (Game.player g') = false) by (apply Ec; lia).
    pose proof (half_in_range (Game.width g) Hw).
    pose proof (half_in_range (Game.height g) Hh).
    refine (conj _ (conj _ (conj _ (conj _ Hc)))); clear Hc Ec.
    all: rewrite ?Ew, ?Eh, ?Ep, ?Es; cbn [Game.x Game.y]; lia.
Qed.

Lemma run_keeps_shape (ops : list Game.op) :
  forall (g : Game.t) (rng : list Q) (g' : Game.t) (rng' : list Q) (bound : Z),
    (5 <= Game.width g)%Z -> (5 <= Game.height g)%Z -> in_grid g (Game.player g) ->
    (0 <= Game.score g <= bound)%Z ->
    Game.run ops g rng = Some (g', rng') ->
    (5 <= Game.width g')%Z /\ (5 <= Game.height g')%Z /\ in_grid g' (Game.player g')
    /\ (0 <= Game.score g' <= bound + Z.of_nat (length ops))%Z
    /\ (ops <> [] -> Game.same_cell (Game.target g') (Game.player g') = false).
Proof.
  induction ops as [|o ops IH]; intros g rng g' rng' bound Hw Hh Hp Hs H.
  - injection H as <- <-. simpl. repeat split; try lia; try apply Hp. now intros [].
  - cbn [Game.run] in H.
    destruct (Game.apply o g rng) as [[g1 rng1]|] eqn:E; [|discriminate].
    destruct (apply_keeps_shape o g rng g1 rng1 bound Hw Hh Hp Hs E)
      as (Hw1 & Hh1 & Hp1 & Hs1 & Hc1).
    destruct (IH g1 rng1 g' rng' (bound + 1)%Z Hw1 Hh1 Hp1 Hs1 H)
      as (Hw' & Hh' & Hp' & Hs' & Hc').
    repeat split; try apply Hp'; try lia.
    + cbn [length]. lia.
    + intros _. destruct ops as [|o' ops']; [|apply Hc'; discriminate].
      injection H as <- <-. exact Hc1.
Qed.

(** X17.  Every game reached from the new game by moves, resizes and
    resets has a grid of at least 5 by 5 with the player on it and a
    score between 0 and the number of operations made; and after the
    first operation the target is never in the player's cell. *)
Theorem reachable_games_are_well_formed :
  forall (ops : list Game.op) (rng : list Q) (g : Game.t) (rng' : list Q),
    Game.run ops Game.initial rng = Some (g, rng') ->
    (5 <= Game.width g)%Z /\ (5 <= Game.height g)%Z
    /\ in_grid g (Game.player g)
    /\ (0 <= Game.score g <= Z.of_nat (length ops))%Z
    /\ (ops <> [] -> Game.same_cell (Game.target g) (Game.player g) = false).
Proof.
  intros ops rng g rng' H.
  apply (run_keeps_shape ops Game.initial rng g rng' 0%Z); try exact H;
    unfold in_grid; simpl; lia.
Qed.

(** The theorem at the start of the program and one step to the right. *)
Lemma reachable_games_are_well_formed_witness :
  in_grid
    {| Game.width := 10; Game.height := 6;
       Game.player := {| Game.x := 6; Game.y := 3 |};
       Game.target := {| Game.x := 0; Game.y := 0 |};
       Game.score := 1 |}
    {| Game.x := 6; Game.y := 3 |}.
Proof.
  refine (proj1 (proj2 (proj2 (reachable_games_are_well_formed
            [Game.Reset; Game.Move 1 0] example_rng _ (skipn 4 example_rng) _)))).
  vm_compute. reflexivity.
Defined.

(** ** The picture of the game *)

Lemma length_upto (n : Z) : length (upto n) = Z.to_nat n.
Proof. unfold upto. now rewrite length_map, length_seq. Qed.

Lemma In_upto (n i : Z) : In i (upto n) <-> (0 <= i < n)%Z.
Proof.
  unfold upto. rewrite in_map_iff. split.
  - intros (k & <- & Hk). apply in_seq in Hk. lia.
  - intro H. exists (Z.to_nat i). split; [lia|]. apply in_seq. lia.
Qed.

Lemma list_sum_zero (A : Type) (F : A -> nat) (l : list A) :
  (forall i, In i l -> F i = 0%nat) -> list_sum (map F l) = 0%nat.
Proof.
  induction l as [|a l IH]; intro H; [reflexivity|].
  simpl. rewrite (H a (or_introl eq_refl)), IH; [reflexivity|].
  intros i Hi. apply H. now right.
Qed.

(** A sum over the counter values where one value counts 1 and the
    others count 0. *)
Lemma list_sum_one (F : Z -> nat) (n k : Z) :
  (0 <= k < n)%Z -> F k = 1%nat ->
  (forall i, (0 <= i < n)%Z -> i <> k -> F i = 0%nat) ->
  list_sum (map F (upto n)) = 1%nat.
Proof.
  intros Hk H1 H0. unfold upto. rewrite map_map.
  replace (Z.to_nat n) with (Z.to_nat k + S (Z.to_nat n - Z.to_nat k - 1))%nat by lia.
  rewrite seq_app, map_app, list_sum_app. rewrite Nat.add_0_l.
  cbn [seq map list_sum]. rewrite Z2Nat.id by lia. rewrite H1.
  rewrite (list_sum_zero _ (fun x => F (Z.of_nat x)) (seq 0 (Z.to_nat k))).
  - change (list_sum (1%nat :: ?l)) with (1 + list_sum l)%nat.
    rewrite (list_sum_zero _ (fun x => F (Z.of_nat x))); [reflexivity|].
    intros i Hi. apply in_seq in Hi. apply H0; lia.
  - intros i Hi. apply in_seq in Hi. apply H0; lia.
Qed.

Lemma count_occ_map_sum (A : Type) (f : A -> N) (c : N) (l : list A) :
  count_occ N.eq_dec (map f l) c
  = list_sum (map (fun i => if N.eq_dec (f i) c then 1%nat else 0%nat) l).
Proof.
  induction l as [|a l IH]; [reflexivity|].
  cbn [map count_occ list_sum]. destruct (N.eq_dec (f a) c); simpl; now rewrite IH.
Qed.

Lemma count_occ_concat_sum (A : Type) (R : A -> list N) (c : N) (l : list A) :
  count_occ N.eq_dec (concat (map R l)) c
  = list_sum (map (fun y => count_occ N.eq_dec (R y) c) l).
Proof.
  induction l as [|a l IH]; [reflexivity|].
  cbn [map concat list_sum]. now rewrite count_occ_app, IH.
Qed.

(** A character that [render_cell] writes in the cell [(kx, ky)] of the
    grid and nowhere else is written once. *)
Lemma rendered_once (g : Game.t) (c : char) (kx ky : Z) :
  (0 <= kx < Game.width g)%Z -> (0 <= ky < Game.height g)%Z ->
  (forall cx cy, render_cell g cx cy = c <-> cx = kx /\ cy = ky) ->
  count_occ N.eq_dec (concat (Game_render g)) c = 1%nat.
Proof.
  intros Hx Hy Hc. unfold Game_render.
  rewrite count_occ_concat_sum.
  apply (list_sum_one _ (Game.height g) ky Hy).
  - rewrite count_occ_map_sum. apply (list_sum_one _ (Game.width g) kx Hx).
    + destruct (N.eq_dec (render_cell g kx ky) c) as [_|N]; [reflexivity|].
      exfalso. apply N. now apply Hc.
    + intros i _ Hi. destruct (N.eq_dec (render_cell g i ky) c) as [E|_]; [|reflexivity].
      apply Hc in E as [E _]. contradiction.
  - intros cy _ Hcy. rewrite count_occ_map_sum. apply list_sum_zero.
    intros cx _. destruct (N.eq_dec (render_cell g cx cy) c) as [E|_]; [|reflexivity].
    apply Hc in E as [_ E]. contradiction.
Qed.

(** X18.  For a game whose player and target are on the grid in different
    cells, [Game.render] gives as many rows as the grid is high, each as
    long as the grid is wide, made of the characters [@], [*] and [.]
    only, with exactly one [@] and exactly one [*]. *)
Theorem render_shows_one_player_and_one_target :
  forall g : Game.t,
    in_grid g (Game.player g) ->
    in_grid g (Game.target g) ->
    Game.same_cell (Game.target g) (Game.player g) = false ->
    length (Game_render g) = Z.to_nat (Game.height g)
    /\ Forall (fun row => length row = Z.to_nat (Game.width g)) (Game_render g)
    /\ Forall (Forall (fun c => c = 64%N \/ c = 42%N \/ c = 46%N)) (Game_render g)
    /\ count_occ N.eq_dec (concat (Game_render g)) 64%N = 1%nat
    /\ count_occ N.eq_dec (concat (Game_render g)) 42%N = 1%nat.
Proof.
  intros g [Hpx Hpy] [Htx Hty] Hne.
  split; [unfold Game_render; now rewrite length_map, length_upto|].
  split; [|split; [|split]].
  - unfold Game_render. apply Forall_map, Forall_forall. intros cy _.
    now rewrite length_map, length_upto.
  - unfold Game_render. apply Forall_map, Forall_forall. intros cy _.
    apply Forall_map, Forall_forall. intros cx _. unfold render_cell.
    repeat match goal with |- context [if ?b then _ else _] => destruct b end; auto.
  - apply (rendered_once g 64%N (Game.x (Game.player g)) (Game.y (Game.player g)) Hpx Hpy).
    intros cx cy. unfold render_cell.
    repeat match goal with
           | |- context [Z.eqb ?a ?b] => destruct (Z.eqb_spec a b)
           end; cbn [andb]; split; intro H; try discriminate H;
      try (destruct H; contradiction); try reflexivity; auto.
  - assert (Hd : ~ (Game.x (Game.target g) = Game.x (Game.player g)
                    /\ Game.y (Game.target g) = Game.y (Game.player g))).
    { intros [Ex Ey]. unfold Game.same_cell in Hne.
      rewrite Ex, Ey, !Z.eqb_refl in Hne. discriminate Hne. }
    apply (rendered_once g 42%N (Game.x (Game.target g)) (Game.y (Game.target g)) Htx Hty).
    intros cx cy. unfold render_cell.
    repeat match goal with
           | |- context [Z.eqb ?a ?b] => destruct (Z.eqb_spec a b)
           end; cbn [andb]; split; intro H; try discriminate H;
      try (destruct H; contradiction); try reflexivity; auto;
      exfalso; apply Hd; destruct H; split; congruence.
Qed.

(** The theorem at the example game. *)
Lemma render_shows_one_player_and_one_target_witness :
  length (Game_render example_game) = Z.to_nat (Game.height example_game).
Proof.
  refine (proj1 (render_shows_one_player_and_one_target example_game _ _ _)).
  - unfold in_grid. simpl. lia.
  - unfold in_grid. simpl. lia.
  - reflexivity.
Defined.

(** ** Placing the target anew *)

Lemma placeTarget_loop_with_target (t : Game.pos) (g : Game.t) (rng : list Q) :
  Game.placeTarget_loop (with_target t g) rng = Game.placeTarget_loop g rng.
Proof.
  induction rng as [|a|rx ry rest IH] using pairs_ind; try reflexivity.
  cbn [Game.placeTarget_loop with_target Game.width Game.height Game.player Game.score].
  now rewrite IH.
Qed.

Lemma placeTarget_with_target (t : Game.pos) (g : Game.t) (rng : list Q) :
  Game.placeTarget (with_target t g) rng = Game.placeTarget g rng.
Proof.
  unfold Game.placeTarget.
  rewrite placeTarget_loop_with_target. reflexivity.
Qed.

(** X19.  [resize] and [reset] never read the old target: from two games
    that differ in the target only they give the same game and use the
    same random values. *)
Theorem resize_and_reset_ignore_old_target :
  forall (g : Game.t) (t : Game.pos) (w h : Z) (rng : list Q),
    Game.resize (with_target t g) w h rng = Game.resize g w h rng
    /\ Game.reset (with_target t g) rng = Game.reset g rng.
Proof.
  intros g t w h rng. split.
  - unfold Game.resize.
    exact (placeTarget_with_target t
             {| Game.width := Z.max 5 w; Game.height := Z.max 5 h;
                Game.player := {| Game.x := Z.min (Game.x (Game.player g)) (Z.max 5 w - 1);
                                  Game.y := Z.min (Game.y (Game.player g)) (Z.max 5 h - 1) |};
                Game.target := Game.target g; Game.score := Game.score g |} rng).
  - unfold Game.reset.
    exact (placeTarget_with_target t
             {| Game.width := Game.width g; Game.height := Game.height g;
                Game.player := {| Game.x := Game.width g / 2; Game.y := Game.height g / 2 |};
                Game.target := Game.target g; Game.score := 0 |} rng).
Qed.

(** ** The screen *)

(** X20.  [layout()] stacks the two boxes over the whole height of the
    screen: the game box starts where the log box ends and is at least 8
    rows high, so the log box has a height of 0 or more only on a screen
    of 8 rows or more.  The pseudo-terminal gets the inside of the log box
    on a screen of at least 22 columns and 15 rows, and 20 columns or 5
    rows where the screen has fewer. *)
Theorem layout_stacks_the_boxes :
  forall sw sh : Z,
    let l := layout sw sh in
    (logBox_height l + gameBox_height l = sh)%Z
    /\ gameBox_top l = logBox_height l
    /\ (8 <= gameBox_height l)%Z
    /\ ((0 <= logBox_height l)%Z <-> (8 <= sh)%Z)
    /\ pty_cols l = (if Z.leb 22 sw then logBox_width l - 2 else 20)%Z
    /\ pty_rows l = (if Z.leb 15 sh then logBox_height l - 2 else 5)%Z.
Proof.
  intros sw sh. unfold layout. cbn.
  repeat split; try lia.
  - intro H. Z.div_mod_to_equations. lia.
  - destruct (Z.leb_spec 22 sw); lia.
  - destruct (Z.leb_spec 15 sh); Z.div_mod_to_equations; lia.
Qed.

(** Linear arithmetic with the divisions by a constant written out. *)
Ltac div_lia := Z.div_mod_to_equations; lia.

Lemma render_game_size_cases (sw sh : Z) :
  render_game_size (layout sw sh)
  = if Z.leb 7 sw && Z.leb 27 sh
    then Some (Z.min 30 (sw - 2), Z.min 12 (sh / 3 - 4))%Z
    else None.
Proof.
  unfold render_game_size, layout.
  cbn [gameBox_width gameBox_height].
  destruct (Z.leb_spec 7 sw) as [Hw|Hw]; destruct (Z.leb_spec 27 sh) as [Hh|Hh]; cbn [andb].
  - replace (4 <? sw - 2)%Z with true by (symmetry; apply Z.ltb_lt; div_lia).
    replace (4 <? Z.max 8 (sh / 3) - 4)%Z with true by (symmetry; apply Z.ltb_lt; div_lia).
    cbn [andb]. f_equal. f_equal. div_lia.
  - replace (4 <? Z.max 8 (sh / 3) - 4)%Z with false by (symmetry; apply Z.ltb_ge; div_lia).
    now rewrite andb_false_r.
  - replace (4 <? sw - 2)%Z with false by (symmetry; apply Z.ltb_ge; div_lia).
    reflexivity.
  - replace (4 <? sw - 2)%Z with false by (symmetry; apply Z.ltb_ge; div_lia).
    reflexivity.
Qed.

(** X21.  [render()] resizes the game exactly on a screen of at least 7
    columns and 27 rows, and leaves a game on a smaller screen as it is.
    When it resizes, the sizes it passes are between 5 and 30 columns and
    between 5 and 12 rows, so [resize] takes them as they are, and the
    grid drawn afterwards has at most [gameBox.height - 4] rows of at most
    [gameBox.width - 2] characters. *)
Theorem render_resizes_on_large_screens_only :
  forall (sw sh : Z) (g : Game.t) (rng : list Q),
    if Z.leb 7 sw && Z.leb 27 sh
    then forall g' rng',
        render_game sw sh g rng = Some (g', rng') ->
        Game.width g' = Z.min 30 (sw - 2)
        /\ Game.height g' = Z.min 12 (sh / 3 - 4)
        /\ (5 <= Game.width g' <= 30)%Z /\ (5 <= Game.height g' <= 12)%Z
        /\ (Z.of_nat (length (Game_render g')) <= gameBox_height (layout sw sh) - 4)%Z
        /\ Forall (fun row => (Z.of_nat (length row) <= gameBox_width (layout sw sh) - 2)%Z)
                  (Game_render g')
    else render_game sw sh g rng = Some (g, rng).
Proof.
  intros sw sh g rng. unfold render_game. rewrite render_game_size_cases.
  destruct (Z.leb_spec 7 sw) as [Hw|Hw]; destruct (Z.leb_spec 27 sh) as [Hh|Hh];
    cbn [andb]; try reflexivity.
  intros g' rng' H.
  apply resize_sound in H as (Ew & Eh & _).
  assert (Ew' : Game.width g' = Z.min 30 (sw - 2)) by div_lia.
  assert (Eh' : Game.height g' = Z.min 12 (sh / 3 - 4)) by div_lia.
  split; [exact Ew'|]. split; [exact Eh'|].
  split; [div_lia|]. split; [div_lia|].
  unfold Game_render, layout. cbn [gameBox_width gameBox_height]. split.
  - rewrite length_map, length_upto. div_lia.
  - apply Forall_map, Forall_forall. intros cy _.
    rewrite length_map, length_upto. div_lia.
Qed.

(** The theorem on a screen of 80 columns and 40 rows. *)
Lemma render_resizes_on_large_screens_only_witness :
  exists g' rng',
    render_game 80 40 example_game example_rng = Some (g', rng')
    /\ Game.width g' = 30%Z /\ Game.height g' = 9%Z.
Proof.
  destruct (render_game 80 40 example_game example_rng) as [[g' rng']|] eqn:E;
    [|vm_compute in E; discriminate E].
  exists g', rng'. split; [reflexivity|].
  pose proof (render_resizes_on_large_screens_only 80 40 example_game example_rng) as H.
  cbn [Z.leb Z.compare Pos.compare Pos.compare_cont andb] in H.
  destruct (H g' rng' E) as (Hw & Hh & _).
  split; [exact Hw|exact Hh].
Defined.

(** X22.  On a screen of at least 7 columns and 27 rows every [render()]
    places the target anew: once the game has been rendered, the next
    [render()] on the same screen is the loop of [placeTarget] and nothing
    else.  It keeps the size, the player and the score, and it takes at
    least two values from [Math.random()]. *)
Theorem render_again_replaces_the_target :
  forall (sw sh : Z) (g g1 : Game.t) (rng rng1 : list Q),
    (7 <= sw)%Z -> (27 <= sh)%Z ->
    render_game sw sh g rng = Some (g1, rng1) ->
    render_game sw sh g1 rng1 = Game.placeTarget_loop g1 rng1
    /\ forall g2 rng2,
        render_game sw sh g1 rng1 = Some (g2, rng2) ->
        placed g1 g2 /\ (length rng2 + 2 <= length rng1)%nat.
Proof.
  intros sw sh g g1 rng rng1 Hw Hh H.
  unfold render_game in *. rewrite render_game_size_cases in *.
  replace (Z.leb 7 sw) with true in * by (symmetry; apply Z.leb_le; div_lia).
  replace (Z.leb 27 sh) with true in * by (symmetry; apply Z.leb_le; div_lia).
  cbn [andb] in *.
  apply resize_sound in H as (Ew & Eh & Ep & _).
  assert (E : Game.resize g1 (Z.min 30 (sw - 2)) (Z.min 12 (sh / 3 - 4)) rng1
              = Game.placeTarget_loop g1 rng1).
  { unfold Game.resize, Game.placeTarget.
    cbn [Game.width Game.height Game.player Game.score Game.target].
    replace (Z.max 5 (Z.min 30 (sw - 2)) <=? 1)%Z with false
      by (symmetry; apply Z.leb_gt; div_lia).
    replace (Z.max 5 (Z.min 12 (sh / 3 - 4)) <=? 1)%Z with false
      by (symmetry; apply Z.leb_gt; div_lia).
    cbn [orb].
    transitivity (Game.placeTarget_loop (with_target (Game.target g1) g1) rng1);
      [|apply placeTarget_loop_with_target].
    f_equal. unfold with_target. rewrite <- Ew, <- Eh.
    f_equal. rewrite Ep. cbn [Game.x Game.y]. f_equal; div_lia. }
  split; [exact E|].
  intros g2 rng2 H2. rewrite E in H2.
  split; [exact (proj1 (placeTarget_loop_sound g1 rng1 g2 rng2 H2))|].
  clear - H2. revert H2.
  induction rng1 as [|a|rx ry rest IH] using pairs_ind; intro H; try discriminate H.
  cbn [Game.placeTarget_loop] in H.
  destruct (negb (Game.random_below rx (Game.width g1) =? Game.x (Game.player g1))%Z
            || negb (Game.random_below ry (Game.height g1) =? Game.y (Game.player g1))%Z).
  - injection H as _ <-. simpl. div_lia.
  - apply IH in H. simpl. div_lia.
Qed.

(** The theorem on a screen of 80 columns and 40 rows. *)
Lemma render_again_replaces_the_target_witness :
  exists g1 rng1,
    render_game 80 40 example_game example_rng = Some (g1, rng1)
    /\ render_game 80 40 g1 rng1 = Game.placeTarget_loop g1 rng1.
Proof.
  destruct (render_game 80 40 example_game example_rng) as [[g1 rng1]|] eqn:E;
    [|vm_compute in E; discriminate E].
  exists g1, rng1. split; [reflexivity|].
  refine (proj1 (render_again_replaces_the_target 80 40 example_game g1
                   example_rng rng1 _ _ E)); lia.
Defined.

(** ** The focus key *)

(** X23.  Ctrl+G steps the override through game, copilot and none: from
    any value three presses give it back, and no smaller number does.
    With no override set, the first press gives the game the focus
    whatever the signals say, the second gives it to Copilot, and the
    third returns to the focus the signals give. *)
Theorem toggle_has_period_three :
  forall m : option Focus,
    toggle (toggle (toggle m)) = m
    /\ toggle m <> m /\ toggle (toggle m) <> m
    /\ forall (p : bool) (h : HookState),
        let st := fun o => {| promptDetected := p; hookState := h; manualFocus := o |} in
        keypress_focus (st (toggle None)) = focus_game
        /\ keypress_focus (st (toggle (toggle None))) = focus_copilot
        /\ keypress_focus (st (toggle (toggle (toggle None)))) = keypress_focus (st None)
        /\ fst (render_focus_status (st (toggle None))) = focus_game.
Proof.
  intros [[|]|]; repeat split; try discriminate; reflexivity.
Qed.
